(** * Priority-based reconciliation of two record sets (data.py)

    A shallow embedding of [DataFrameUpdater.compare_and_update_dataframe]
    and of the pandas operations it is written with, followed by the
    properties of the reconciliation that the design document states.

    Scope of the embedding.
    - A Python [str] is a list of Unicode code points.
    - A cell holds a string, an integer or the missing-value marker NaN.
      The int/float distinction that pandas introduces when a column
      receives NaN is not represented: numbers are plain integers.
    - A frame is its list of column labels together with its rows; a row
      is a pandas [Series], that is an ordered list of (label, value).
    - The two frames passed by the caller are objects in a heap, because
      the method assigns a column to each of them in place.
    - [logging] calls are not represented. *)

From Stdlib Require Import ZArith NArith String Ascii.
From stdpp Require Import base option list gmap.

Open Scope Z_scope.

(** ** Python strings *)

Abbreviation pystr := (list N).

(** Reading a string literal of this file (UTF-8 bytes) as code points,
    for sequences of one, two and three bytes. *)
Fixpoint utf8_decode (bs : list N) : pystr :=
  match bs with
  | [] => []
  | b0 :: rest =>
      if (b0 <? 128)%N then b0 :: utf8_decode rest
      else if (b0 <? 224)%N then
        match rest with
        | b1 :: rest1 => ((b0 - 192) * 64 + (b1 - 128))%N :: utf8_decode rest1
        | [] => []
        end
      else
        match rest with
        | b1 :: b2 :: rest2 =>
            ((b0 - 224) * 4096 + (b1 - 128) * 64 + (b2 - 128))%N
              :: utf8_decode rest2
        | _ => []
        end
  end.

Definition u (s : string) : pystr :=
  utf8_decode (map N_of_ascii (list_ascii_of_string s)).

(** [str.lower] on the Basic Latin, Latin-1 and Cyrillic blocks.  The
    development below is parametric in the lower-casing function; this
    instance serves the concrete examples. *)
Definition lower_cp (c : N) : N :=
  if ((65 <=? c) && (c <=? 90))%N then (c + 32)%N
  else if ((192 <=? c) && (c <=? 222) && negb (c =? 215))%N then (c + 32)%N
  else if ((1040 <=? c) && (c <=? 1071))%N then (c + 32)%N
  else if ((1024 <=? c) && (c <=? 1039))%N then (c + 80)%N
  else c.

Definition str_lower (s : pystr) : pystr := map lower_cp s.

(** [str.strip()]: only the design document mentions trimming; the code
    never calls it.  Used to state the document's [normalize]. *)
Definition is_space (c : N) : bool :=
  ((c =? 32) || ((9 <=? c) && (c <=? 13)) || (c =? 133) || (c =? 160))%N.

Fixpoint lstrip (s : pystr) : pystr :=
  match s with
  | c :: s' => if is_space c then lstrip s' else s
  | [] => []
  end.

Definition str_strip (s : pystr) : pystr := rev (lstrip (rev (lstrip s))).

(** Lexicographic order on strings, as Python's [<] on [str]. *)
Fixpoint str_ltb (a b : pystr) : bool :=
  match a, b with
  | _, [] => false
  | [], _ :: _ => true
  | x :: a', y :: b' =>
      if (x <? y)%N then true else if (y <? x)%N then false else str_ltb a' b'
  end.

(** ** Cells *)

Inductive cell :=
  | VStr (s : pystr)
  | VInt (z : Z)
  | VNaN.

Global Instance cell_eq_dec : EqDecision cell.
Proof. solve_decision. Defined.

Fixpoint uint_digits (d : Decimal.uint) : pystr :=
  match d with
  | Decimal.Nil => []
  | Decimal.D0 d => 48%N :: uint_digits d
  | Decimal.D1 d => 49%N :: uint_digits d
  | Decimal.D2 d => 50%N :: uint_digits d
  | Decimal.D3 d => 51%N :: uint_digits d
  | Decimal.D4 d => 52%N :: uint_digits d
  | Decimal.D5 d => 53%N :: uint_digits d
  | Decimal.D6 d => 54%N :: uint_digits d
  | Decimal.D7 d => 55%N :: uint_digits d
  | Decimal.D8 d => 56%N :: uint_digits d
  | Decimal.D9 d => 57%N :: uint_digits d
  end.

(** [str(value)] *)
Definition py_str (v : cell) : pystr :=
  match v with
  | VStr s => s
  | VInt z =>
      match Z.to_int z with
      | Decimal.Pos d => uint_digits d
      | Decimal.Neg d => 45%N :: uint_digits d
      end
  | VNaN => u "nan"
  end.

(** ** Exceptions *)

Inductive exn :=
  | KeyError (k : pystr)
  | TypeError.

Inductive res (A : Type) :=
  | Ok (a : A)
  | Raise (e : exn).
Arguments Ok {A} a.
Arguments Raise {A} e.

Global Instance exn_eq_dec : EqDecision exn.
Proof. solve_decision. Defined.
Global Instance res_eq_dec `{EqDecision A} : EqDecision (res A).
Proof. solve_decision. Defined.

Global Instance res_ret : MRet res := λ A a, Ok a.
Global Instance res_bind : MBind res := λ A B f m,
  match m with
  | Ok a => f a
  | Raise e => Raise e
  end.

(** A loop [for x in xs: acc = body(acc, x)] whose body may raise. *)
Fixpoint for_each {A B} (body : A → B → res A) (xs : list B) (acc : A) : res A :=
  match xs with
  | [] => Ok acc
  | x :: xs' => acc' ← body acc x; for_each body xs' acc'
  end.

Fixpoint map_res {A B} (f : A → res B) (xs : list A) : res (list B) :=
  match xs with
  | [] => Ok []
  | x :: xs' => y ← f x; ys ← map_res f xs'; Ok (y :: ys)
  end.

(** [a == b] and [a < b] on cells. *)
Definition py_eq (a b : cell) : bool :=
  match a, b with
  | VStr x, VStr y => bool_decide (x = y)
  | VInt x, VInt y => bool_decide (x = y)
  | _, _ => false
  end.

Definition py_lt (a b : cell) : res bool :=
  match a, b with
  | VInt x, VInt y => Ok (x <? y)
  | VStr x, VStr y => Ok (str_ltb x y)
  | VNaN, VStr _ | VStr _, VNaN | VInt _, VStr _ | VStr _, VInt _ => Raise TypeError
  | _, _ => Ok false
  end.

(** ** Series and frames *)

Abbreviation label := (list N).
Abbreviation Series := (list (list N * cell)).

(** [row[k]] *)
Fixpoint series_get (row : Series) (k : label) : res cell :=
  match row with
  | [] => Raise (KeyError k)
  | (k', v) :: row' => if decide (k' = k) then Ok v else series_get row' k
  end.

(** [row[k] = v]: overwrites the entry of an existing label, otherwise
    the series is enlarged. *)
Fixpoint series_set (row : Series) (k : label) (v : cell) : Series :=
  match row with
  | [] => [(k, v)]
  | (k', v') :: row' =>
      if decide (k' = k) then (k', v) :: row' else (k', v') :: series_set row' k v
  end.

Record DataFrame := {
  columns : list label;
  rows : list Series
}.

(** A frame as pandas builds it: distinct labels, and every row carries
    exactly the frame's labels, in order. *)
Definition wf_frame (d : DataFrame) : Prop :=
  NoDup (columns d) ∧ Forall (λ r : Series, r.*1 = columns d) (rows d).

Global Instance wf_frame_dec d : Decision (wf_frame d).
Proof. unfold wf_frame. apply _. Defined.

(** [df[c]] *)
Definition frame_get (d : DataFrame) (c : label) : res (list cell) :=
  if decide (c ∈ columns d) then map_res (λ r, series_get r c) (rows d)
  else Raise (KeyError c).

(** [df[c] = vals], for as many values as the frame has rows (the only
    use below assigns a column computed from the frame itself). *)
Definition frame_set (d : DataFrame) (c : label) (vals : list cell) : DataFrame :=
  {| columns := if decide (c ∈ columns d) then columns d else columns d ++ [c];
     rows := zip_with (λ r v, series_set r c v) (rows d) vals |}.

(** [df.drop(columns=names, errors='ignore')] *)
Definition drop_columns (d : DataFrame) (names : list label) : DataFrame :=
  {| columns := filter (λ c, c ∉ names) (columns d);
     rows := filter (λ kv : label * cell, kv.1 ∉ names) <$> rows d |}.

(** [df[names]] for a list of labels. *)
Definition select_columns (d : DataFrame) (names : list label) : res DataFrame :=
  match list_find (λ c, c ∉ columns d) names with
  | Some (_, c) => Raise (KeyError c)
  | None =>
      rs ← map_res (λ r, vs ← map_res (series_get r) names; Ok (zip names vs)) (rows d);
      Ok {| columns := names; rows := rs |}
  end.

(** ** Labels and literals of the method *)

Definition priority_lbl : label := Eval vm_compute in u "priority".
Definition merge_lbl : label := Eval vm_compute in u "_merge".
Definition suffix_df2 : pystr := Eval vm_compute in u "_df2".
Definition priority_df2_lbl : label := Eval vm_compute in u "priority_df2".
Definition both : pystr := Eval vm_compute in u "both".
Definition left_only : pystr := Eval vm_compute in u "left_only".

(** ** [pd.merge(left, right, on=on, how='left', suffixes=('', '_df2'),
       indicator=True)]

    Result labels: the left labels, then the right labels that are not
    keys, a right label that also occurs on the left receiving the
    suffix, then the indicator.  Result rows: in left order, one row per
    matching right row (in right order), or one row padded with NaN when
    no right row has the same key. *)
Section merge.
Context (left right : DataFrame) (on : list label).

Definition rename_right (c : label) : label :=
  if decide (c ∈ columns left) then c ++ suffix_df2 else c.

Definition right_labels : list label :=
  filter (λ c, c ∉ on) (columns right).

Definition key_of (r : Series) : list (res cell) := series_get r <$> on.

Definition right_part (s : Series) : Series :=
  (λ kv : label * cell, (rename_right kv.1, kv.2))
    <$> filter (λ kv : label * cell, kv.1 ∉ on) s.

Definition matches (t : Series) : list Series :=
  filter (λ s, key_of s = key_of t) (rows right).

Definition merge_row (t : Series) : list Series :=
  match matches t with
  | [] => [t ++ ((λ c, (rename_right c, VNaN)) <$> right_labels)
             ++ [(merge_lbl, VStr left_only)]]
  | ms => (λ s, t ++ right_part s ++ [(merge_lbl, VStr both)]) <$> ms
  end.

Definition merge_left : DataFrame :=
  {| columns := columns left ++ (rename_right <$> right_labels) ++ [merge_lbl];
     rows := flat_map merge_row (rows left) |}.
End merge.

(** ** [DataFrame.apply(f, axis=1)] for an [f] that returns a Series *)
Definition apply_rows (f : Series → res Series) (d : DataFrame) : res DataFrame :=
  rs ← map_res f (rows d);
  Ok {| columns := match rs with
                   | [] => columns d
                   | r :: _ => r.*1
                   end;
        rows := rs |}.

(** ** The class [DataFrameUpdater] *)

Record DataFrameUpdater := {
  ip_col : label;
  computer_name_col : label;
  value_col : label;
  priority_map : gmap pystr Z
}.

Definition PRIORITY_MAP : gmap pystr Z :=
  list_to_map
    [ (u "важно", 5);
      (u "очень важно", 4);
      (u "средне", 3);
      (u "не очень", 2);
      (u "пусто", 1) ].

(** Objects live in a heap; a frame passed to the method is a reference. *)
Abbreviation loc := nat.
Abbreviation heap := (list DataFrame).

Section DataFrameUpdater.
(** [str.lower], a parameter of the development. *)
Context (lower : pystr → pystr).
Context (self : DataFrameUpdater).

Definition get_priority (value : cell) : Z :=
  let value := lower (py_str value) in
  default 0 (priority_map self !! value).

(** Line 53: the three configured columns exist in both frames. *)
Definition has_required (d1 d2 : DataFrame) : bool :=
  forallb (λ col, bool_decide (col ∈ columns d1) && bool_decide (col ∈ columns d2))
          [ip_col self; computer_name_col self; value_col self].

(** Lines 63 and 64: [df['priority'] = df[self.value_col].apply(get_priority)] *)
Definition annotate (d : DataFrame) : res DataFrame :=
  vals ← frame_get d (value_col self);
  Ok (frame_set d priority_lbl ((λ v, VInt (get_priority v)) <$> vals)).

(** Lines 82 and 83, the body of the loop over [df2.columns]. *)
Definition copy_from_df2 (row : Series) (col : label) : res Series :=
  if decide (col ∉ [ip_col self; computer_name_col self; priority_lbl])
  then v ← series_get row (col ++ suffix_df2); Ok (series_set row col v)
  else Ok row.

(** Lines 77 to 84; [df2] is the annotated source frame. *)
Definition update_row (df2 : DataFrame) (row : Series) : res Series :=
  m ← series_get row merge_lbl;
  if py_eq m (VStr both) then
    p ← series_get row priority_lbl;
    p2 ← series_get row priority_df2_lbl;
    py_lt p p2 ≫= λ b : bool,
    if b then for_each copy_from_df2 (columns df2) row
    else Ok row
  else Ok row.

(** Lines 67 to 93, on the two annotated frames. *)
Definition reconcile_frames (d1 d2 : DataFrame) : res DataFrame :=
  let merged := merge_left d1 d2 [ip_col self; computer_name_col self] in
  df1_updated ← apply_rows (update_row d2) merged;
  let df1_updated :=
    drop_columns df1_updated [priority_lbl; priority_df2_lbl; merge_lbl] in
  let existing_cols :=
    filter (λ col, col ∈ columns df1_updated) (columns d1) in
  select_columns df1_updated existing_cols.

(** The method.  The result is the outcome (the returned reference or
    the exception raised) and the heap the caller is left with; [None]
    stands for a call on a reference that denotes no object. *)
Definition compare_and_update_dataframe (df1 df2 : loc) (h : heap)
    : option (res loc * heap) :=
  d1 ← h !! df1;
  d2 ← h !! df2;
  if negb (has_required d1 d2) then Some (Ok df1, h)
  else
    match annotate d1 with
    | Raise e => Some (Raise e, h)
    | Ok d1' =>
        let h := <[df1 := d1']> h in
        (* [df2] is read after the assignment: it may be the same object *)
        d2 ← h !! df2;
        match annotate d2 with
        | Raise e => Some (Raise e, h)
        | Ok d2' =>
            let h := <[df2 := d2']> h in
            d1 ← h !! df1;
            d2 ← h !! df2;
            match reconcile_frames d1 d2 with
            | Raise e => Some (Raise e, h)
            | Ok out => Some (Ok (length h), h ++ [out])
            end
        end
    end.
End DataFrameUpdater.

(** [__init__]: the ranking defaults to [PRIORITY_MAP]. *)
Definition DataFrameUpdater_init (ip name value : label)
    (ranking : option (gmap pystr Z)) : DataFrameUpdater :=
  {| ip_col := ip; computer_name_col := name; value_col := value;
     priority_map := default PRIORITY_MAP ranking |}.

(** ** Notions used to state the properties *)

Definition cell_or_nan (r : Series) (k : label) : cell :=
  match series_get r k with
  | Ok v => v
  | Raise _ => VNaN
  end.

(** The labels that the loop of [update_row] must leave readable, [inL],
    are not overwritten: no label that the loop assigns is the suffixed
    form of a label it copies from. *)
Definition no_clash (self : DataFrameUpdater) (inL : label → Prop)
    (D : list label) : Prop :=
  ∀ col c,
    col ∈ D → col ∉ [ip_col self; computer_name_col self; priority_lbl] →
    c ∈ D → c ∉ [ip_col self; computer_name_col self; priority_lbl] →
    inL c → col ≠ c ++ suffix_df2.

(** The labels of the merged working frame. *)
Definition working_labels (self : DataFrameUpdater) (d1 d2 : DataFrame) : list label :=
  columns (merge_left {| columns := columns d1 ++ [priority_lbl]; rows := [] |}
                      {| columns := columns d2 ++ [priority_lbl]; rows := [] |}
                      [ip_col self; computer_name_col self]).

(** Inputs that stay clear of the names the method reserves: no column
    is called [priority], and the labels of the merged working frame
    ([x_df2] for a shared column [x], [_merge]) collide with nothing. *)
Definition hygienic (self : DataFrameUpdater) (d1 d2 : DataFrame) : Prop :=
  wf_frame d1 ∧ wf_frame d2 ∧
  (priority_lbl ∉ columns d1) ∧ (priority_lbl ∉ columns d2) ∧
  NoDup (working_labels self d1 d2).

Global Instance hygienic_dec self d1 d2 : Decision (hygienic self d1 d2).
Proof. unfold hygienic. apply _. Defined.

Definition dropped_labels : list label :=
  [priority_lbl; priority_df2_lbl; merge_lbl].

Section notions.
Context (lower : pystr → pystr) (self : DataFrameUpdater).

Definition key_cols : list label := [ip_col self; computer_name_col self].

(** The priority score of a record. *)
Definition row_priority (r : Series) : Z :=
  match series_get r (value_col self) with
  | Ok v => get_priority lower self v
  | Raise _ => 0
  end.

(** A record, and a frame, with the priority score appended. *)
Definition annotate_row (r : Series) : Series :=
  r ++ [(priority_lbl, VInt (row_priority r))].

Definition annotated (d : DataFrame) : DataFrame :=
  {| columns := columns d ++ [priority_lbl];
     rows := annotate_row <$> rows d |}.

(** The heap once both arguments carry their priority column. *)
Definition annotated_heap (df1 df2 : loc) (h : heap) (d1 d2 : DataFrame) : heap :=
  <[df2 := annotated d2]> (<[df1 := annotated d1]> h).

(** The target record [t] with every field that the source record [s]
    also has, keys apart, taken from [s]. *)
Definition overwrite (t s : Series) : Series :=
  (λ kv : label * cell,
     (kv.1, match series_get s kv.1 with
            | Ok w => if decide (kv.1 ∈ key_cols) then kv.2 else w
            | Raise _ => kv.2
            end)) <$> t.

(** One matched pair: the source record wins on a strictly higher score. *)
Definition resolve (t s : Series) : Series :=
  if row_priority t <? row_priority s then overwrite t s else t.

(** The output records that one target record gives rise to: itself
    when no source record has its key, otherwise one record per source
    record with its key, in source order. *)
Definition reconciled (d2 : DataFrame) (t : Series) : list Series :=
  match matches d2 key_cols t with
  | [] => [t]
  | ms => resolve t <$> ms
  end.

Definition reconciled_rows (d1 d2 : DataFrame) : list Series :=
  flat_map (reconciled d2) (rows d1).

(** The rows of the merged working frame: for a target record without
    match, and for a target record with a source record of its key. *)
Definition left_only_row (d1 d2 : DataFrame) (t : Series) : Series :=
  annotate_row t
    ++ ((λ c, (rename_right (annotated d1) c, VNaN))
          <$> right_labels (annotated d2) key_cols)
    ++ [(merge_lbl, VStr left_only)].

Definition matched_row (d1 d2 : DataFrame) (t s : Series) : Series :=
  annotate_row t
    ++ right_part (annotated d1) key_cols (annotate_row s)
    ++ [(merge_lbl, VStr both)].

(** Steps 5 and 6 on one updated row, and [update_row] followed by them. *)
Definition project_target_row (d1 : DataFrame) (Sf : Series) : res Series :=
  vs ← map_res (series_get (filter (λ kv : label * cell, kv.1 ∉ dropped_labels) Sf))
               (columns d1);
  Ok (zip (columns d1) vs).

Definition row_pipeline (d1 d2 : DataFrame) (S : Series) : res Series :=
  Sf ← update_row self (annotated d2) S; project_target_row d1 Sf.

(** The design document's reading of the code, where it differs from it. *)

(** Its [normalize] lower-cases and trims. *)
Definition documented_priority (value : cell) : Z :=
  default 0 (priority_map self !! str_strip (lower (py_str value))).

(** Its multi-match policy: the matches of a target record are scanned
    in source order, each compared with the record as updated so far,
    and the target record yields one output record. *)
Definition cumulative_scan (t : Series) (ms : list Series) : Series :=
  foldl resolve t ms.

Definition documented_rows (d1 d2 : DataFrame) : list Series :=
  (λ t, cumulative_scan t (matches d2 key_cols t)) <$> rows d1.
End notions.

(** ** Concrete record sets *)

(** A frame from its labels and the value lists of its rows. *)
Definition frame (cols : list label) (data : list (list cell)) : DataFrame :=
  {| columns := cols; rows := zip cols <$> data |}.

Definition str (x : string) : cell := VStr (u x).

Definition updater : DataFrameUpdater :=
  DataFrameUpdater_init (u "ip") (u "name") (u "value") None.

Definition cols4 : list label := [u "ip"; u "name"; u "value"; u "x"].

Definition target1 : DataFrame :=
  frame cols4 [[str "10.0.0.1"; str "PC-1"; str "пусто"; str "a"]].

Definition source1 : DataFrame :=
  frame cols4 [[str "10.0.0.1"; str "PC-1"; str "очень важно"; str "b"]].

(** The output that the design document expects for [target1] and [source1]. *)
Definition output1 : DataFrame :=
  frame cols4 [[str "10.0.0.1"; str "PC-1"; str "очень важно"; str "b"]].

(** A target whose second record has no counterpart in [source1]. *)
Definition target2 : DataFrame :=
  frame cols4 [[str "10.0.0.1"; str "PC-1"; str "пусто"; str "a"];
               [str "10.0.0.2"; str "PC-2"; str "средне"; str "a"]].

(** Two source records with the key of the target record. *)
Definition source_two_matches : DataFrame :=
  frame cols4 [[str "10.0.0.1"; str "PC-1"; str "важно"; str "b"];
               [str "10.0.0.1"; str "PC-1"; str "средне"; str "c"]].

(** What the method returns for [target1] and [source_two_matches]. *)
Definition output_two_matches : DataFrame :=
  frame cols4 [[str "10.0.0.1"; str "PC-1"; str "важно"; str "b"];
               [str "10.0.0.1"; str "PC-1"; str "средне"; str "c"]].

(** What the method returns for [target2] and [source1]. *)
Definition output2 : DataFrame :=
  frame cols4 [[str "10.0.0.1"; str "PC-1"; str "очень важно"; str "b"];
               [str "10.0.0.2"; str "PC-2"; str "средне"; str "a"]].

(** A source with a column that the target does not have. *)
Definition source_extra : DataFrame :=
  frame [u "ip"; u "name"; u "value"; u "extra"]
        [[str "10.0.0.1"; str "PC-1"; str "важно"; str "z"]].

(** A source without the value column. *)
Definition source_no_value : DataFrame :=
  frame [u "ip"; u "name"; u "x"] [[str "10.0.0.1"; str "PC-1"; str "b"]].


(** ** The caller in the module's script *)

(** [df.copy()]: a new object with the content of [df]. *)
Definition frame_copy (df : loc) (h : heap) : option (loc * heap) :=
  d ← h !! df; Some (length h, h ++ [d]).

(** Lines 127 to 130:
    [updater.compare_and_update_dataframe(df1.copy(), df2)]. *)
Definition call_on_copy (lower : pystr → pystr) (self : DataFrameUpdater)
    (df1 df2 : loc) (h : heap) : option (res loc * heap) :=
  ch ← frame_copy df1 h;
  compare_and_update_dataframe lower self ch.1 df2 ch.2.

(** Lines 63 and 64 on a frame that may already have a column
    [priority]: the column is assigned, or appended when missing. *)
Definition with_scores (lower : pystr → pystr) (self : DataFrameUpdater)
    (d : DataFrame) : DataFrame :=
  {| columns := if decide (priority_lbl ∈ columns d) then columns d
                else columns d ++ [priority_lbl];
     rows := (λ r, series_set r priority_lbl (VInt (row_priority lower self r)))
               <$> rows d |}.

(** A source whose record ties with the first record of [target2]. *)
Definition source_tie : DataFrame :=
  frame [u "ip"; u "name"; u "value"; u "extra"]
        [[str "10.0.0.1"; str "PC-1"; str "пусто"; str "z"]].

(** A target that has a column named [priority] of its own. *)
Definition target_own_priority : DataFrame :=
  frame [u "ip"; u "name"; u "priority"; u "value"]
        [[str "10.0.0.1"; str "PC-1"; str "urgent"; str "пусто"]].

Definition source3 : DataFrame :=
  frame [u "ip"; u "name"; u "value"]
        [[str "10.0.0.1"; str "PC-1"; str "важно"]].


(** ** Inputs that [pd.merge] accepts

    Before it joins, [pd.merge] raises a [ValueError] of its own on key
    columns of incompatible types (numbers on one side, text on the
    other) and, with [indicator=True], on a frame that has a column
    named [_left_indicator] or [_right_indicator].  [merge_left]
    describes the join, not these checks.  The statements below about
    when the method returns and when it raises are therefore made for
    inputs on which the checks pass: two distinct key columns that hold
    text in every record of both frames, and no column with one of the
    two reserved names. *)
Definition is_text (v : res cell) : bool :=
  match v with
  | Ok (VStr _) => true
  | _ => false
  end.

Definition text_keys (self : DataFrameUpdater) (d : DataFrame) : Prop :=
  Forall (λ r : Series,
            Forall (λ k, is_text (series_get r k) = true) (key_cols self))
         (rows d).

Definition indicator_reserved : list label :=
  [u "_left_indicator"; u "_right_indicator"].

Definition mergeable (self : DataFrameUpdater) (d1 d2 : DataFrame) : Prop :=
  ip_col self ≠ computer_name_col self ∧
  text_keys self d1 ∧ text_keys self d2 ∧
  Forall (λ c, (c ∉ columns d1) ∧ (c ∉ columns d2)) indicator_reserved.

Global Instance mergeable_dec self d1 d2 : Decision (mergeable self d1 d2).
Proof. unfold mergeable, text_keys. apply _. Defined.

Ltac by_eval :=
  match goal with
  | |- ?P => apply (bool_decide_unpack P); vm_compute; exact I
  end.

(** * Properties *)

Lemma bind_Ok {A B} (a : A) (f : A → res B) : (Ok a ≫= f) = f a.
Proof. done. Qed.

(** ** Lookup and assignment in a Series *)

Lemma series_get_elem (r : Series) k v :
  NoDup r.*1 → (k, v) ∈ r → series_get r k = Ok v.
Proof.
  induction r as [|[k' v'] r IH]; simpl; intros Hnd Hin.
  - by apply elem_of_nil in Hin.
  - apply NoDup_cons in Hnd as [Hk' Hnd].
    apply elem_of_cons in Hin as [Heq|Hin].
    + injection Heq as -> ->. by rewrite decide_True.
    + rewrite decide_False; [by apply IH|].
      intros ->. apply Hk'. apply list_elem_of_fmap. by exists (k, v).
Qed.

Lemma series_get_Ok (r : Series) k v :
  series_get r k = Ok v → (k, v) ∈ r.
Proof.
  induction r as [|[k' v'] r IH]; simpl; [done|].
  case_decide as Hk.
  - intros [= ->]. subst. by left.
  - intros H. right. by apply IH.
Qed.

Lemma series_get_Raise (r : Series) k e :
  series_get r k = Raise e → e = KeyError k ∧ k ∉ r.*1.
Proof.
  induction r as [|[k' v'] r IH]; simpl.
  - intros [= <-]. split; [done|]. apply not_elem_of_nil.
  - case_decide as Hk; [done|]. intros H. destruct (IH H) as [-> Hn].
    split; [done|]. apply not_elem_of_cons. split; [congruence|done].
Qed.

Lemma series_get_is_Ok (r : Series) k :
  k ∈ r.*1 → ∃ v, series_get r k = Ok v.
Proof.
  intros Hin. destruct (series_get r k) as [v|e] eqn:E; [by exists v|].
  by apply series_get_Raise in E as [_ ?].
Qed.

Lemma series_get_app_l (r1 r2 : Series) k :
  k ∈ r1.*1 → series_get (r1 ++ r2) k = series_get r1 k.
Proof.
  induction r1 as [|[k' v'] r1 IH]; simpl; intros Hin.
  - by apply elem_of_nil in Hin.
  - case_decide; [done|]. apply IH.
    apply elem_of_cons in Hin as [?|?]; [congruence|done].
Qed.

Lemma series_get_set_eq (r : Series) k v :
  series_get (series_set r k v) k = Ok v.
Proof.
  induction r as [|[k' v'] r IH]; simpl.
  - by rewrite decide_True.
  - case_decide as Hk; simpl; [by rewrite decide_True|by rewrite decide_False].
Qed.

Lemma series_get_set_ne (r : Series) k k' v :
  k ≠ k' → series_get (series_set r k v) k' = series_get r k'.
Proof.
  intros Hne. induction r as [|[k0 v0] r IH]; simpl.
  - by rewrite decide_False.
  - case_decide as Hk; simpl.
    + subst. by rewrite !decide_False.
    + case_decide; [done|apply IH].
Qed.

Lemma series_set_labels (r : Series) k v :
  k ∈ r.*1 → (series_set r k v).*1 = r.*1.
Proof.
  induction r as [|[k0 v0] r IH]; simpl; intros Hin.
  - by apply elem_of_nil in Hin.
  - case_decide as Hk; simpl; [done|]. f_equal. apply IH.
    apply elem_of_cons in Hin as [?|?]; [congruence|done].
Qed.

Lemma series_set_fresh (r : Series) k v :
  k ∉ r.*1 → series_set r k v = r ++ [(k, v)].
Proof.
  induction r as [|[k0 v0] r IH]; simpl; intros Hin; [done|].
  apply not_elem_of_cons in Hin as [Hne Hin].
  rewrite decide_False; [|congruence]. f_equal. by apply IH.
Qed.

Lemma series_set_last (r : Series) k v v' :
  k ∉ r.*1 → series_set (r ++ [(k, v')]) k v = r ++ [(k, v)].
Proof.
  induction r as [|[k0 v0] r IH]; simpl; intros Hin.
  - by rewrite decide_True.
  - apply not_elem_of_cons in Hin as [Hne Hin].
    rewrite decide_False; [|congruence]. f_equal. by apply IH.
Qed.

Lemma series_get_filter (Q : list N * cell → Prop) `{∀ kv, Decision (Q kv)}
    (r : Series) k :
  (∀ v, Q (k, v)) → series_get (filter Q r) k = series_get r k.
Proof.
  intros HQ. induction r as [|[k0 v0] r IH]; [done|].
  rewrite filter_cons. simpl. case_decide as HQ0; simpl.
  - case_decide; [done|apply IH].
  - rewrite decide_False; [apply IH|]. intros ->. by apply HQ0.
Qed.

Lemma filter_fst (P : label → Prop) `{∀ k, Decision (P k)} (r : Series) :
  (filter (λ kv : label * cell, P kv.1) r).*1 = filter P r.*1.
Proof.
  induction r as [|[k0 v0] r IH]; [done|].
  rewrite fmap_cons, !filter_cons. simpl. case_decide; simpl; [f_equal|]; apply IH.
Qed.

(** ** Loops that may raise *)

Lemma map_res_Ok {A B} (f : A → res B) (g : A → B) xs :
  (∀ x, x ∈ xs → f x = Ok (g x)) → map_res f xs = Ok (g <$> xs).
Proof.
  induction xs as [|x xs IH]; simpl; intros Hf; [done|].
  rewrite (Hf x); [|by left]. simpl. rewrite IH; [done|].
  intros y Hy. apply Hf. by right.
Qed.

Lemma map_res_fmap {A B C} (f : B → res C) (h : A → B) xs :
  map_res f (h <$> xs) = map_res (λ x, f (h x)) xs.
Proof. induction xs as [|x xs IH]; csimpl; [done|]. by rewrite IH. Qed.

Lemma zip_with_fmap_same {A B C D} (f : B → C → D) (a : A → B) (b : A → C) l :
  zip_with f (a <$> l) (b <$> l) = (λ x, f (a x) (b x)) <$> l.
Proof. induction l as [|x l IH]; csimpl; [done|]. by rewrite IH. Qed.

(** ** The priority annotation of a frame *)

Section annotation.
Context (lower : pystr → pystr) (self : DataFrameUpdater).

Lemma frame_get_wf d c :
  wf_frame d → c ∈ columns d → frame_get d c = Ok ((λ r, cell_or_nan r c) <$> rows d).
Proof.
  intros [_ Hrows] Hc. unfold frame_get. rewrite decide_True by done.
  apply map_res_Ok. intros r Hr.
  rewrite Forall_forall in Hrows. specialize (Hrows r Hr).
  unfold cell_or_nan. destruct (series_get_is_Ok r c) as [v ->]; [|done].
  by rewrite Hrows.
Qed.

Lemma annotate_fresh d :
  wf_frame d → value_col self ∈ columns d → priority_lbl ∉ columns d →
  annotate lower self d = Ok (annotated lower self d).
Proof.
  intros Hwf Hv Hp. unfold annotate. rewrite frame_get_wf by done. simpl.
  unfold frame_set, annotated. rewrite decide_False by done. do 2 f_equal.
  rewrite <-list_fmap_compose.
  rewrite <-(list_fmap_id (rows d)) at 1. rewrite zip_with_fmap_same.
  apply Forall_fmap_ext. destruct Hwf as [_ Hrows].
  eapply Forall_impl; [exact Hrows|]. intros r Hr. simpl in *.
  rewrite series_set_fresh by (by rewrite Hr).
  unfold annotate_row, row_priority, cell_or_nan.
  destruct (series_get_is_Ok r (value_col self)) as [v ->]; [|done].
  by rewrite Hr.
Qed.

Lemma annotated_wf d :
  wf_frame d → priority_lbl ∉ columns d → wf_frame (annotated lower self d).
Proof.
  intros [Hnd Hrows] Hp. split; simpl.
  - apply NoDup_app. split; [done|]. split; [|apply NoDup_singleton].
    intros x Hx ->%list_elem_of_singleton. done.
  - apply Forall_fmap. eapply Forall_impl; [exact Hrows|].
    intros r Hr. unfold annotate_row. simpl in *. by rewrite fmap_app, Hr.
Qed.

(** Annotating an annotated frame once more leaves it as it is: this
    is what happens when one object is passed as both arguments. *)
Lemma annotate_again d :
  wf_frame d → value_col self ∈ columns d → priority_lbl ∉ columns d →
  annotate lower self (annotated lower self d) = Ok (annotated lower self d).
Proof.
  intros Hwf Hv Hp. unfold annotate.
  rewrite frame_get_wf; [|by apply annotated_wf|].
  2:{ simpl. apply elem_of_app. by left. }
  simpl. unfold frame_set. simpl.
  rewrite decide_True by (apply elem_of_app; right; by left).
  unfold annotated. do 2 f_equal.
  rewrite <-!list_fmap_compose. rewrite zip_with_fmap_same.
  apply Forall_fmap_ext. destruct Hwf as [_ Hrows].
  eapply Forall_impl; [exact Hrows|]. intros r Hr. simpl in *.
  unfold annotate_row at 1 3.
  rewrite series_set_last by (by rewrite Hr). do 3 f_equal.
  unfold cell_or_nan, annotate_row, row_priority.
  rewrite series_get_app_l by (by rewrite Hr).
  destruct (series_get_is_Ok r (value_col self)) as [v ->]; [by rewrite Hr|done].
Qed.
End annotation.

(** ** List facts used below *)

Lemma filter_all {A} (P : A → Prop) `{∀ x, Decision (P x)} (l : list A) :
  Forall P l → filter P l = l.
Proof.
  induction 1 as [|x l Hx _ IH]; [done|].
  rewrite filter_cons, decide_True by done. by rewrite IH.
Qed.

Lemma filter_none {A} (P : A → Prop) `{∀ x, Decision (P x)} (l : list A) :
  Forall (λ x, ¬ P x) l → filter P l = [].
Proof.
  induction 1 as [|x l Hx _ IH]; [done|].
  by rewrite filter_cons, decide_False.
Qed.

Lemma filter_fmap_list {A B} (f : A → B) (P : B → Prop) `{∀ y, Decision (P y)}
    (l : list A) :
  filter P (f <$> l) = f <$> filter (λ x, P (f x)) l.
Proof.
  induction l as [|x l IH]; [done|].
  rewrite fmap_cons, !filter_cons. simpl. case_decide; csimpl; by rewrite IH.
Qed.

Lemma filter_ext_in {A} (P Q : A → Prop) `{∀ x, Decision (P x)} `{∀ x, Decision (Q x)}
    (l : list A) :
  (∀ x, x ∈ l → (P x ↔ Q x)) → filter P l = filter Q l.
Proof.
  induction l as [|x l IH]; intros HPQ; [done|].
  rewrite !filter_cons.
  assert (filter P l = filter Q l) as ->.
  { apply IH. intros y Hy. apply HPQ. by right. }
  destruct (HPQ x) as [H1 H2]; [by left|].
  repeat case_decide; tauto.
Qed.

Lemma NoDup_fmap_elem_inj {A B} (f : A → B) (l : list A) x y :
  NoDup (f <$> l) → x ∈ l → y ∈ l → f x = f y → x = y.
Proof.
  induction l as [|z l IH]; csimpl; intros Hnd Hx Hy Hf.
  - by apply elem_of_nil in Hx.
  - apply NoDup_cons in Hnd as [Hz Hnd].
    apply elem_of_cons in Hx as [->|Hx]; apply elem_of_cons in Hy as [->|Hy].
    + done.
    + exfalso. apply Hz. rewrite Hf. by apply list_elem_of_fmap_2.
    + exfalso. apply Hz. rewrite <-Hf. by apply list_elem_of_fmap_2.
    + by apply IH.
Qed.

Lemma app_suffix_ne {A} (c sfx : list A) : sfx ≠ [] → c ++ sfx ≠ c.
Proof.
  intros Hs Heq. apply (f_equal length) in Heq. rewrite length_app in Heq.
  destruct sfx; [done|]. simpl in Heq. lia.
Qed.

(** ** The loop of [update_row] *)

Section copy_loop.
Context (self : DataFrameUpdater).
(** The labels that the loop must leave readable. *)
Context (inL : label → Prop).

Local Abbreviation skip := [ip_col self; computer_name_col self; priority_lbl].
Local Abbreviation no_clash := (no_clash self inL).

Lemma no_clash_cons col D : no_clash (col :: D) → no_clash D.
Proof.
  intros H c1 c2 H1 H2 H3 H4 H5. apply H; try done; by right.
Qed.

Lemma for_each_copy D S Sf :
  for_each (copy_from_df2 self) D S = Ok Sf →
  no_clash D →
  ∀ c, inL c →
    series_get Sf c =
      if decide (c ∈ D ∧ c ∉ skip) then series_get S (c ++ suffix_df2)
      else series_get S c.
Proof.
  revert S. induction D as [|col D IH]; intros S Hrun Hnc c Hc;
    cbn [for_each] in Hrun.
  - injection Hrun as <-. rewrite decide_False; [done|].
    intros [H _]. by apply elem_of_nil in H.
  - destruct (copy_from_df2 self S col) as [S1|e] eqn:E; simpl in Hrun; [|done].
    rewrite (IH _ Hrun (no_clash_cons _ _ Hnc) c Hc).
    unfold copy_from_df2 in E. 
    destruct (decide (col ∉ skip)) as [Hcol|Hcol].
    + destruct (series_get S (col ++ suffix_df2)) as [v|e] eqn:Ev;
        simpl in E; [|done].
      injection E as <-.
      destruct (decide (c ∈ D ∧ c ∉ skip)) as [[H1 H2]|Hn].
      * rewrite decide_True by (split; [by right|done]).
        apply series_get_set_ne. apply Hnc; try done; [by left|by right].
      * destruct (decide (col = c)) as [->|Hne].
        -- rewrite decide_True by (split; [by left|done]).
           by rewrite series_get_set_eq.
        -- rewrite decide_False.
           ++ by apply series_get_set_ne.
           ++ intros [[?|?]%elem_of_cons ?]; [congruence|tauto].
    + injection E as <-.
      destruct (decide (c ∈ D ∧ c ∉ skip)) as [[H1 H2]|Hn].
      * by rewrite decide_True by (split; [by right|done]).
      * rewrite decide_False; [done|].
        intros [[->|?]%elem_of_cons ?]; tauto.
Qed.

Lemma for_each_copy_labels D S Sf :
  for_each (copy_from_df2 self) D S = Ok Sf →
  (∀ col, col ∈ D → col ∉ skip → col ∈ S.*1) →
  Sf.*1 = S.*1.
Proof.
  revert S. induction D as [|col D IH]; intros S Hrun Hin;
    cbn [for_each] in Hrun.
  - by injection Hrun as <-.
  - destruct (copy_from_df2 self S col) as [S1|e] eqn:E; simpl in Hrun; [|done].
    unfold copy_from_df2 in E. 
    destruct (decide (col ∉ skip)) as [Hcol|Hcol].
    + destruct (series_get S (col ++ suffix_df2)) as [v|e] eqn:Ev;
        simpl in E; [|done].
      injection E as <-.
      assert (col ∈ S.*1) as HcolS by (apply Hin; [by left|done]).
      rewrite (IH _ Hrun).
      * by apply series_set_labels.
      * intros c ? ?. rewrite series_set_labels by done. apply Hin; [by right|done].
    + injection E as <-.
      apply (IH _ Hrun). intros c ? ?. apply Hin; [by right|done].
Qed.

Lemma for_each_copy_raises D S c :
  c ∈ D → c ∉ skip → c ++ suffix_df2 ∉ S.*1 →
  (∀ col, col ∈ D → col ∉ skip → col ∈ S.*1) →
  ∃ e, for_each (copy_from_df2 self) D S = Raise e.
Proof.
  revert S. induction D as [|col D IH]; intros S Hc Hsk Hn Hin; cbn [for_each].
  - by apply elem_of_nil in Hc.
  - destruct (copy_from_df2 self S col) as [S1|e] eqn:E; simpl; [|by eexists].
    unfold copy_from_df2 in E.
    destruct (decide (col ∉ skip)) as [Hcol|Hcol].
    + destruct (series_get S (col ++ suffix_df2)) as [v|e] eqn:Ev;
        simpl in E; [|done].
      injection E as <-.
      assert (col ∈ S.*1) as HcolS by (apply Hin; [by left|done]).
      apply elem_of_cons in Hc as [->|Hc].
      * exfalso. apply Hn. apply list_elem_of_fmap.
        exists (col ++ suffix_df2, v). split; [done|]. by apply series_get_Ok.
      * apply IH; try done.
        -- by rewrite series_set_labels.
        -- intros c' ? ?. rewrite series_set_labels by done.
           apply Hin; [by right|done].
    + injection E as <-.
      apply elem_of_cons in Hc as [->|Hc]; [done|].
      apply IH; try done. intros c' ? ?. apply Hin; [by right|done].
Qed.
End copy_loop.

Lemma map_res_app_Ok {A B} (f : A → res B) l1 l2 out :
  map_res f (l1 ++ l2) = Ok out →
  ∃ o1 o2, out = o1 ++ o2 ∧ map_res f l1 = Ok o1 ∧ map_res f l2 = Ok o2.
Proof.
  revert out. induction l1 as [|x l1 IH]; csimpl; intros out H.
  - by exists [], out.
  - destruct (f x) as [y|e]; simpl in *; [|done].
    destruct (map_res f (l1 ++ l2)) as [ys|e] eqn:E; simpl in *; [|done].
    injection H as <-. destruct (IH _ eq_refl) as (o1 & o2 & -> & -> & ->).
    by exists (y :: o1), o2.
Qed.

Lemma map_res_fmap_Ok {A B C} (f : B → res C) (h : A → B) (e : A → C) l out :
  map_res f (h <$> l) = Ok out →
  (∀ x y, x ∈ l → f (h x) = Ok y → y = e x) →
  out = e <$> l.
Proof.
  revert out. induction l as [|x l IH]; csimpl; intros out H He.
  - by injection H as <-.
  - destruct (f (h x)) as [y|?] eqn:Ey; simpl in *; [|done].
    destruct (map_res f (h <$> l)) as [ys|?] eqn:E; simpl in *; [|done].
    injection H as <-. f_equal.
    + apply He; [by left|done].
    + apply IH; [done|]. intros x' y' Hx'. apply He. by right.
Qed.

Lemma map_res_total {A B} (f : A → res B) l :
  (∀ x, x ∈ l → ∃ y, f x = Ok y) → ∃ ys, map_res f l = Ok ys.
Proof.
  induction l as [|x l IH]; csimpl; intros H; [by eexists|].
  destruct (H x) as [y ->]; [by left|].
  destruct IH as [ys ->]; [intros; apply H; by right|].
  by eexists.
Qed.

Lemma map_res_Raise {A B} (f : A → res B) l x e :
  x ∈ l → f x = Raise e → ∃ e', map_res f l = Raise e'.
Proof.
  induction l as [|y l IH]; csimpl; intros Hx Hf.
  - by apply elem_of_nil in Hx.
  - destruct (f y) as [z|e1] eqn:Ey; simpl; [|by eexists].
    apply elem_of_cons in Hx as [->|Hx]; [congruence|].
    destruct (IH Hx Hf) as [e' ->]. by eexists.
Qed.

Lemma map_res_compose {A B C} (f : A → res B) (g : B → res C) l rs out :
  map_res f l = Ok rs → map_res g rs = Ok out →
  map_res (λ x, y ← f x; g y) l = Ok out.
Proof.
  revert rs out. induction l as [|x l IH]; csimpl; intros rs out Hf Hg.
  - injection Hf as <-. done.
  - destruct (f x) as [y|?]; simpl in *; [|done].
    destruct (map_res f l) as [ys|?] eqn:E; simpl in *; [|done].
    injection Hf as <-. simpl in Hg.
    destruct (g y) as [z|?]; simpl in *; [|done].
    destruct (map_res g ys) as [zs|?] eqn:E'; simpl in *; [|done].
    by rewrite (IH _ _ eq_refl E').
Qed.

Lemma project_exact (names : list label) (S r : Series) :
  r.*1 = names →
  (∀ c v, (c, v) ∈ r → series_get S c = Ok v) →
  (vs ← map_res (series_get S) names; Ok (zip names vs)) = Ok r.
Proof.
  intros <- Hget. rewrite map_res_fmap.
  rewrite (map_res_Ok _ snd).
  - simpl. by rewrite zip_fst_snd.
  - intros [c v] Hin. simpl. by apply Hget.
Qed.

(** ** The reconciliation as a function of the two record sets *)

Section core.
Context (lower : pystr → pystr) (self : DataFrameUpdater).
Context (d1 d2 : DataFrame).
Context (Hhyg : hygienic self d1 d2).
Context (Hreq : has_required self d1 d2 = true).

Local Abbreviation keys := (key_cols self).
Local Abbreviation skip := [ip_col self; computer_name_col self; priority_lbl].
Local Abbreviation a1 := (annotated lower self d1).
Local Abbreviation a2 := (annotated lower self d2).
Local Abbreviation ann := (annotate_row lower self).
Local Abbreviation merged := (merge_left a1 a2 keys).
Local Abbreviation left_row := (left_only_row lower self d1 d2).
Local Abbreviation both_row := (matched_row lower self d1 d2).
Local Abbreviation dropped := dropped_labels.
Local Abbreviation project_row := (project_target_row d1).
Local Abbreviation pipeline := (row_pipeline lower self d1 d2).

Lemma required_columns :
  (ip_col self ∈ columns d1 ∧ computer_name_col self ∈ columns d1
     ∧ value_col self ∈ columns d1) ∧
  (ip_col self ∈ columns d2 ∧ computer_name_col self ∈ columns d2
     ∧ value_col self ∈ columns d2).
Proof.
  unfold has_required in Hreq. simpl in Hreq.
  repeat (apply andb_prop in Hreq as [Hreq ?]).
  repeat match goal with
         | H : bool_decide _ = true |- _ => apply bool_decide_eq_true in H
         | H : _ && _ = true |- _ => apply andb_prop in H as [? ?]
         end.
  done.
Qed.

Lemma wf1 : wf_frame d1.
Proof. apply Hhyg. Qed.
Lemma wf2 : wf_frame d2.
Proof. apply Hhyg. Qed.
Lemma fresh1 : priority_lbl ∉ columns d1.
Proof. apply Hhyg. Qed.

Lemma fresh2 : priority_lbl ∉ columns d2.
Proof. apply Hhyg. Qed.

Lemma merged_NoDup : NoDup (columns merged).
Proof. apply Hhyg. Qed.

Lemma row_labels1 t : t ∈ rows d1 → t.*1 = columns d1.
Proof.
  intros Ht. destruct wf1 as [_ H]. rewrite Forall_forall in H. by apply H.
Qed.

Lemma row_labels2 s : s ∈ rows d2 → s.*1 = columns d2.
Proof.
  intros Ht. destruct wf2 as [_ H]. rewrite Forall_forall in H. by apply H.
Qed.

Lemma keys_in1 k : k ∈ keys → k ∈ columns d1.
Proof.
  destruct required_columns as [(? & ? & ?) _].
  intros [->|[->|[]%elem_of_nil]%elem_of_cons]%elem_of_cons; done.
Qed.

Lemma keys_in2 k : k ∈ keys → k ∈ columns d2.
Proof.
  destruct required_columns as [_ (? & ? & ?)].
  intros [->|[->|[]%elem_of_nil]%elem_of_cons]%elem_of_cons; done.
Qed.

Lemma priority_not_key : priority_lbl ∉ keys.
Proof. intros H%keys_in1. by apply fresh1. Qed.

Lemma skip_iff c : c ∈ skip ↔ c ∈ keys ∨ c = priority_lbl.
Proof.
  unfold key_cols. rewrite !elem_of_cons, !elem_of_nil. tauto.
Qed.

Lemma key_of_ann (r x : Series) :
  (∀ k, k ∈ keys → k ∈ r.*1) → key_of keys (r ++ x) = key_of keys r.
Proof.
  intros Hk. unfold key_of. apply Forall_fmap_ext, Forall_forall.
  intros k Hkin. apply series_get_app_l. by apply Hk.
Qed.

Lemma matches_ann t :
  t ∈ rows d1 → matches a2 keys (ann t) = ann <$> matches d2 keys t.
Proof.
  intros Ht. unfold matches. change (rows a2) with (ann <$> rows d2).
  rewrite filter_fmap_list. f_equal.
  apply filter_ext_in. intros s Hs. unfold annotate_row.
  rewrite !key_of_ann; [done|..].
  - intros k Hk. rewrite (row_labels1 t Ht). by apply keys_in1.
  - intros k Hk. rewrite (row_labels2 s Hs). by apply keys_in2.
Qed.

Lemma merge_row_ann t :
  t ∈ rows d1 →
  merge_row a1 a2 keys (ann t) =
    match matches d2 keys t with
    | [] => [left_row t]
    | ms => both_row t <$> ms
    end.
Proof.
  intros Ht. unfold merge_row. rewrite (matches_ann t Ht).
  destruct (matches d2 keys t) as [|s ms]; [done|].
  csimpl. f_equal. by rewrite <-list_fmap_compose.
Qed.

Lemma merged_rows :
  rows merged = flat_map (λ t, merge_row a1 a2 keys (ann t)) (rows d1).
Proof.
  unfold merged, merge_left. simpl.
  induction (rows d1) as [|t l IH]; csimpl; [done|]. by rewrite IH.
Qed.

(** *** Labels of the merged rows *)

Lemma ann_labels1 t : t ∈ rows d1 → (ann t).*1 = columns a1.
Proof. intros Ht. unfold annotate_row. by rewrite fmap_app, (row_labels1 t Ht). Qed.

Lemma ann_labels2 s : s ∈ rows d2 → (ann s).*1 = columns a2.
Proof. intros Hs. unfold annotate_row. by rewrite fmap_app, (row_labels2 s Hs). Qed.

Lemma right_part_labels s :
  s ∈ rows d2 →
  (right_part a1 keys (ann s)).*1 = rename_right a1 <$> right_labels a2 keys.
Proof.
  intros Hs. unfold right_part, right_labels.
  rewrite <-(ann_labels2 s Hs), <-filter_fst, <-!list_fmap_compose. done.
Qed.

Lemma both_row_labels t s :
  t ∈ rows d1 → s ∈ rows d2 → (both_row t s).*1 = columns merged.
Proof.
  intros Ht Hs. unfold matched_row.
  by rewrite !fmap_app, (ann_labels1 t Ht), (right_part_labels s Hs).
Qed.

Lemma left_row_labels t :
  t ∈ rows d1 → (left_row t).*1 = columns merged.
Proof.
  intros Ht. unfold left_only_row.
  by rewrite !fmap_app, (ann_labels1 t Ht), <-list_fmap_compose.
Qed.

Lemma in_right_labels c :
  c ∈ columns a2 → c ∉ keys → c ∈ right_labels a2 keys.
Proof. intros ? ?. unfold right_labels. by apply list_elem_of_filter. Qed.

Lemma rename_shared c :
  c ∈ columns a1 → rename_right a1 c = c ++ suffix_df2.
Proof. intros ?. unfold rename_right. by rewrite decide_True. Qed.

Lemma in1_a1 c : c ∈ columns d1 → c ∈ columns a1.
Proof. intros ?. apply elem_of_app. by left. Qed.

Lemma in2_a2 c : c ∈ columns d2 → c ∈ columns a2.
Proof. intros ?. apply elem_of_app. by left. Qed.

Lemma priority_in_a1 : priority_lbl ∈ columns a1.
Proof. apply elem_of_app. right. by left. Qed.

Lemma priority_in_a2 : priority_lbl ∈ columns a2.
Proof. apply elem_of_app. right. by left. Qed.

Lemma merged_columns :
  columns merged =
    columns a1 ++ (rename_right a1 <$> right_labels a2 keys) ++ [merge_lbl].
Proof. done. Qed.

Lemma merged_parts :
  NoDup (columns a1) ∧
  (∀ x, x ∈ columns a1 →
        (x ∉ (rename_right a1 <$> right_labels a2 keys)) ∧ x ≠ merge_lbl) ∧
  NoDup (rename_right a1 <$> right_labels a2 keys).
Proof.
  pose proof merged_NoDup as H. rewrite merged_columns in H.
  apply NoDup_app in H as (H1 & H2 & H3).
  apply NoDup_app in H3 as (H3 & _ & _).
  split; [done|]. split; [|done].
  intros x Hx. specialize (H2 x Hx). rewrite elem_of_app in H2.
  split; [tauto|]. intros ->. apply H2. right. by left.
Qed.

Lemma no_clash_merged :
  no_clash self (λ c, c ∈ columns a1) (columns a2).
Proof.
  unfold no_clash. intros col c Hcol Hcsk Hc Hck HcL Heq.
  destruct merged_parts as (_ & Hdisj & Hnd).
  assert (c ∈ right_labels a2 keys) as Hcr.
  { apply in_right_labels; [done|]. intros ?. apply Hck, skip_iff. by left. }
  assert (col ∈ right_labels a2 keys) as Hcolr.
  { apply in_right_labels; [done|]. intros ?. apply Hcsk, skip_iff. by left. }
  destruct (decide (col ∈ columns a1)) as [HcolL|HcolL].
  - destruct (Hdisj col HcolL) as [Hn _]. apply Hn.
    rewrite Heq, <-(rename_shared c HcL). by apply list_elem_of_fmap_2.
  - assert (col = c) as Hsame.
    { apply (NoDup_fmap_elem_inj (rename_right a1) (right_labels a2 keys));
        try done.
      rewrite (rename_shared c HcL). unfold rename_right.
      by rewrite decide_False. }
    rewrite Hsame in Heq. symmetry in Heq. by apply app_suffix_ne in Heq.
Qed.

(** *** Reading a merged row *)

Lemma both_row_NoDup t s :
  t ∈ rows d1 → s ∈ rows d2 → NoDup (both_row t s).*1.
Proof.
  intros Ht Hs. rewrite (both_row_labels t s Ht Hs). apply merged_NoDup.
Qed.

Lemma get_both_merge t s :
  t ∈ rows d1 → s ∈ rows d2 →
  series_get (both_row t s) merge_lbl = Ok (VStr both).
Proof.
  intros Ht Hs. apply series_get_elem; [by apply both_row_NoDup|].
  unfold matched_row. rewrite !elem_of_app. right. right. by left.
Qed.

Lemma get_both_left t s c v :
  t ∈ rows d1 → s ∈ rows d2 → (c, v) ∈ ann t →
  series_get (both_row t s) c = Ok v.
Proof.
  intros Ht Hs Hin. apply series_get_elem; [by apply both_row_NoDup|].
  unfold matched_row. rewrite !elem_of_app. by left.
Qed.

Lemma get_both_right t s c v :
  t ∈ rows d1 → s ∈ rows d2 → (c, v) ∈ ann s → c ∉ keys → c ∈ columns a1 →
  series_get (both_row t s) (c ++ suffix_df2) = Ok v.
Proof.
  intros Ht Hs Hin Hck HcL. apply series_get_elem; [by apply both_row_NoDup|].
  unfold matched_row. rewrite !elem_of_app. right. left.
  unfold right_part. apply list_elem_of_fmap. exists (c, v). simpl.
  rewrite (rename_shared c HcL). split; [done|].
  by apply list_elem_of_filter.
Qed.

Lemma update_row_both t s :
  t ∈ rows d1 → s ∈ rows d2 →
  update_row self a2 (both_row t s) =
    if row_priority lower self t <? row_priority lower self s
    then for_each (copy_from_df2 self) (columns a2) (both_row t s)
    else Ok (both_row t s).
Proof.
  intros Ht Hs. unfold update_row.
  rewrite (get_both_merge t s Ht Hs). simpl.
  rewrite (get_both_left t s priority_lbl (VInt (row_priority lower self t)));
    [|done|done|].
  2:{ unfold annotate_row. apply elem_of_app. right. by left. }
  simpl.
  change priority_df2_lbl with (priority_lbl ++ suffix_df2).
  rewrite (get_both_right t s priority_lbl (VInt (row_priority lower self s)));
    [|done|done| |apply priority_not_key|apply priority_in_a1].
  2:{ unfold annotate_row. apply elem_of_app. right. by left. }
  done.
Qed.

Lemma update_row_left t :
  t ∈ rows d1 → update_row self a2 (left_row t) = Ok (left_row t).
Proof.
  intros Ht. unfold update_row.
  rewrite (series_get_elem (left_row t) merge_lbl (VStr left_only)); [done|..].
  - rewrite (left_row_labels t Ht). apply merged_NoDup.
  - unfold left_only_row. rewrite !elem_of_app. right. right. by left.
Qed.

(** *** The outcome of [update_row] on a merged row *)

Lemma resolve_labels t s : (resolve lower self t s).*1 = t.*1.
Proof.
  unfold resolve, overwrite.
  destruct (_ <? _); [|done]. by rewrite <-list_fmap_compose.
Qed.

Lemma copy_targets_present t s col :
  t ∈ rows d1 → s ∈ rows d2 →
  col ∈ columns a2 → col ∉ skip → col ∈ (both_row t s).*1.
Proof.
  intros Ht Hs Hcol Hsk. rewrite (both_row_labels t s Ht Hs).
  rewrite merged_columns, !elem_of_app.
  destruct (decide (col ∈ columns a1)) as [HL|HL]; [by left|].
  right. left. apply list_elem_of_fmap. exists col. split.
  - unfold rename_right. by rewrite decide_False.
  - apply in_right_labels; [done|]. intros ?. apply Hsk, skip_iff. by left.
Qed.

Lemma both_row_result t s Sf :
  t ∈ rows d1 → s ∈ rows d2 →
  update_row self a2 (both_row t s) = Ok Sf →
  Sf.*1 = columns merged ∧
  ∀ c v, (c, v) ∈ resolve lower self t s → series_get Sf c = Ok v.
Proof.
  intros Ht Hs. rewrite (update_row_both t s Ht Hs). unfold resolve.
  destruct (row_priority lower self t <? row_priority lower self s).
  - intros Hrun. split.
    + rewrite (for_each_copy_labels self _ _ _ Hrun).
      * by apply both_row_labels.
      * intros col ? ?. by apply copy_targets_present.
    + intros c w Hin. unfold overwrite in Hin.
      apply list_elem_of_fmap in Hin as [[c' v] [Heq Hin]].
      simpl in Heq. injection Heq as -> ->.
      assert (c' ∈ columns d1) as Hc1.
      { rewrite <-(row_labels1 t Ht). apply list_elem_of_fmap.
        by exists (c', v). }
      rewrite (for_each_copy self (λ c, c ∈ columns a1) _ _ _ Hrun
                 no_clash_merged c' (in1_a1 c' Hc1)).
      destruct (decide (c' ∈ columns a2 ∧
                        c' ∉ [ip_col self; computer_name_col self; priority_lbl]))
        as [[H1 H2]|Hn].
      * assert (c' ∉ keys) as Hnk.
        { intros ?. apply H2, skip_iff. by left. }
        assert (c' ∈ columns d2) as Hc2.
        { apply elem_of_app in H1 as [?|Hp]; [done|].
          apply list_elem_of_singleton in Hp. subst.
          by destruct fresh1. }
        destruct (series_get_is_Ok s c') as [x Hx].
        { by rewrite (row_labels2 s Hs). }
        rewrite Hx. rewrite decide_False by done.
        apply get_both_right; try done; [|by apply in1_a1].
        unfold annotate_row. apply elem_of_app. left. by apply series_get_Ok.
      * rewrite (get_both_left t s c' v Ht Hs).
        2:{ unfold annotate_row. apply elem_of_app. by left. }
        f_equal. destruct (series_get s c') as [x|e] eqn:Ex; [|done].
        rewrite decide_True; [done|].
        assert (c' ∈ skip) as Hsk.
        { destruct (decide (c' ∈ skip)) as [?|Hns]; [done|].
          exfalso. apply Hn. split; [|done]. apply in2_a2.
          rewrite <-(row_labels2 s Hs). apply list_elem_of_fmap.
          exists (c', x). split; [done|]. by apply series_get_Ok. }
        apply skip_iff in Hsk as [?|Hp]; [done|]. subst. by destruct fresh1.
  - intros [= <-]. split; [by apply both_row_labels|].
    intros c v Hin. apply get_both_left; try done.
    unfold annotate_row. apply elem_of_app. by left.
Qed.

Lemma left_row_result t c v :
  t ∈ rows d1 → (c, v) ∈ t → series_get (left_row t) c = Ok v.
Proof.
  intros Ht Hin. apply series_get_elem.
  - rewrite (left_row_labels t Ht). apply merged_NoDup.
  - unfold left_only_row, ann. rewrite !elem_of_app. left. by left.
Qed.


(** *** From the updated rows to the returned frame *)

Lemma kept c : c ∈ columns d1 → c ∉ dropped.
Proof.
  intros Hc. destruct merged_parts as (_ & Hdisj & _).
  destruct (Hdisj c (in1_a1 c Hc)) as [Hr Hm].
  unfold dropped_labels. rewrite !not_elem_of_cons. repeat split.
  - intros ->. by destruct fresh1.
  - intros ->. apply Hr.
    change priority_df2_lbl with (priority_lbl ++ suffix_df2).
    rewrite <-(rename_shared priority_lbl priority_in_a1).
    apply list_elem_of_fmap_2, in_right_labels;
      [apply priority_in_a2|apply priority_not_key].
  - done.
  - apply not_elem_of_nil.
Qed.

Lemma project_kept Sf r :
  r.*1 = columns d1 →
  (∀ c v, (c, v) ∈ r → series_get Sf c = Ok v) →
  project_row Sf = Ok r.
Proof.
  intros Hl Hget. unfold project_target_row. apply project_exact; [done|].
  intros c v Hin. rewrite <-(Hget c v Hin).
  apply series_get_filter. intros w. simpl.
  apply kept. rewrite <-Hl. apply list_elem_of_fmap. by exists (c, v).
Qed.

Lemma merged_row_cases S :
  S ∈ rows merged →
  ∃ t, t ∈ rows d1 ∧
       (S = left_row t ∨ ∃ s, s ∈ rows d2 ∧ S = both_row t s).
Proof.
  rewrite merged_rows, list_elem_of_In, in_flat_map.
  intros (t & Ht%list_elem_of_In & HS%list_elem_of_In).
  exists t. split; [done|].
  rewrite (merge_row_ann t Ht) in HS.
  destruct (matches d2 keys t) as [|s0 ms] eqn:Em.
  - apply list_elem_of_singleton in HS. by left.
  - apply list_elem_of_fmap in HS as (s & -> & Hs).
    right. exists s. split; [|done].
    rewrite <-Em in Hs. unfold matches in Hs.
    by apply list_elem_of_filter in Hs as [_ ?].
Qed.

Lemma updated_row_ok S Sf :
  S ∈ rows merged → update_row self a2 S = Ok Sf →
  Sf.*1 = columns merged ∧ ∃ r, project_row Sf = Ok r.
Proof.
  intros (t & Ht & [->|(s & Hs & ->)])%merged_row_cases Hrun.
  - rewrite (update_row_left t Ht) in Hrun. injection Hrun as <-.
    split; [by apply left_row_labels|]. exists t.
    apply project_kept; [by apply row_labels1|].
    intros c v. by apply left_row_result.
  - destruct (both_row_result t s Sf Ht Hs Hrun) as [Hl Hget].
    split; [done|]. exists (resolve lower self t s).
    apply project_kept; [|done].
    rewrite resolve_labels. by apply row_labels1.
Qed.

Lemma map_res_elem {A B} (f : A → res B) l ys y :
  map_res f l = Ok ys → y ∈ ys → ∃ x, x ∈ l ∧ f x = Ok y.
Proof.
  revert ys. induction l as [|x l IH]; csimpl; intros ys H Hy.
  - injection H as <-. by apply elem_of_nil in Hy.
  - destruct (f x) as [z|?] eqn:Ez; simpl in *; [|done].
    destruct (map_res f l) as [zs|?] eqn:E; simpl in *; [|done].
    injection H as <-. apply elem_of_cons in Hy as [->|Hy].
    + exists x. split; [by left|done].
    + destruct (IH _ eq_refl Hy) as (x' & ? & ?). exists x'.
      split; [by right|done].
Qed.

Lemma apply_rows_merged :
  apply_rows (update_row self a2) merged =
    (rs ← map_res (update_row self a2) (rows merged);
     Ok {| columns := columns merged; rows := rs |}).
Proof.
  unfold apply_rows.
  destruct (map_res (update_row self a2) (rows merged)) as [rs|e] eqn:Ers;
    [|done].
  rewrite !bind_Ok. do 2 f_equal.
  destruct rs as [|r rs]; [done|].
  destruct (map_res_elem _ _ _ r Ers) as (S & HS & Hrun); [by left|].
  by destruct (updated_row_ok S r HS Hrun).
Qed.

Lemma existing_cols_eq :
  filter (λ col, col ∈ filter (λ c, c ∉ dropped) (columns merged)) (columns a1)
  = columns d1.
Proof.
  change (columns a1) with (columns d1 ++ [priority_lbl]).
  rewrite filter_app, filter_all, filter_none; [by rewrite app_nil_r|..].
  - apply Forall_singleton. intros [H _]%list_elem_of_filter.
    apply H. by left.
  - apply Forall_forall. intros c Hc. apply list_elem_of_filter.
    split; [by apply kept|].
    rewrite merged_columns. apply elem_of_app. left. by apply in1_a1.
Qed.

Lemma reconcile_frames_unfold :
  reconcile_frames self a1 a2 =
    (rs ← map_res (update_row self a2) (rows merged);
     out ← map_res project_row rs;
     Ok {| columns := columns d1; rows := out |}).
Proof.
  unfold reconcile_frames.
  change (merge_left a1 a2 [ip_col self; computer_name_col self]) with merged.
  rewrite apply_rows_merged.
  destruct (map_res (update_row self a2) (rows merged)) as [rs|e] eqn:Ers;
    [|done].
  rewrite !bind_Ok. cbv beta zeta.
  unfold drop_columns. cbn [columns rows].
  change [priority_lbl; priority_df2_lbl; merge_lbl] with dropped.
  rewrite existing_cols_eq.
  unfold select_columns. cbn [columns rows].
  rewrite (proj2 (list_find_None _ _)).
  2:{ apply Forall_forall. intros c Hc Hn. apply Hn.
      apply list_elem_of_filter. split; [by apply kept|].
      rewrite merged_columns. apply elem_of_app. left. by apply in1_a1. }
  rewrite map_res_fmap. done.
Qed.

Lemma pipeline_left t :
  t ∈ rows d1 → pipeline (left_row t) = Ok t.
Proof.
  intros Ht. unfold row_pipeline. rewrite (update_row_left t Ht), bind_Ok.
  apply project_kept; [by apply row_labels1|].
  intros c v. by apply left_row_result.
Qed.

Lemma pipeline_both t s o :
  t ∈ rows d1 → s ∈ rows d2 →
  pipeline (both_row t s) = Ok o → o = resolve lower self t s.
Proof.
  intros Ht Hs. unfold row_pipeline.
  destruct (update_row self a2 (both_row t s)) as [Sf|e] eqn:Erun; [|done].
  rewrite bind_Ok.
  destruct (both_row_result t s Sf Ht Hs Erun) as [_ Hget].
  rewrite (project_kept Sf (resolve lower self t s)); [congruence| |done].
  rewrite resolve_labels. by apply row_labels1.
Qed.

Lemma matches_in_source t s : s ∈ matches d2 keys t → s ∈ rows d2.
Proof. unfold matches. by intros [_ ?]%list_elem_of_filter. Qed.

Lemma pipeline_rows l o :
  (∀ t, t ∈ l → t ∈ rows d1) →
  map_res pipeline (flat_map (λ t, merge_row a1 a2 keys (ann t)) l) = Ok o →
  o = flat_map (reconciled lower self d2) l.
Proof.
  revert o. induction l as [|t l IH]; intros o Hl Hrun.
  - by injection Hrun as <-.
  - cbn [flat_map] in *.
    apply map_res_app_Ok in Hrun as (o1 & o2 & -> & H1 & H2).
    assert (t ∈ rows d1) as Ht by (apply Hl; by left).
    f_equal; [|apply IH; [intros; apply Hl; by right|done]].
    rewrite (merge_row_ann t Ht) in H1. unfold reconciled. fold keys.
    destruct (matches d2 keys t) as [|s0 ms] eqn:Em.
    + cbn [map_res] in H1. rewrite (pipeline_left t Ht) in H1.
      by injection H1 as <-.
    + eapply map_res_fmap_Ok; [exact H1|].
      intros s y Hs. apply pipeline_both; [done|].
      apply (matches_in_source t). by rewrite Em.
Qed.

(** What the steps after the annotation compute. *)
Lemma reconcile_frames_spec out :
  reconcile_frames self a1 a2 = Ok out →
  columns out = columns d1 ∧ rows out = reconciled_rows lower self d1 d2.
Proof.
  rewrite reconcile_frames_unfold.
  destruct (map_res (update_row self a2) (rows merged)) as [rs|e] eqn:Ers;
    [|done].
  rewrite bind_Ok.
  destruct (map_res project_row rs) as [o|e] eqn:Eo; [|done].
  rewrite bind_Ok. intros [= <-]. split; [done|]. cbn [rows].
  pose proof (map_res_compose _ _ _ _ _ Ers Eo) as Hrun.
  rewrite merged_rows in Hrun. by apply pipeline_rows.
Qed.

(** They raise when a source record outranks a target record of its key
    and some source column has no suffixed counterpart in the merged
    frame, as is the case for a column that only the source has. *)
Lemma reconcile_frames_raises t s c :
  t ∈ rows d1 → s ∈ matches d2 keys t →
  row_priority lower self t < row_priority lower self s →
  c ∈ columns d2 → c ∉ keys → c ++ suffix_df2 ∉ columns merged →
  ∃ e, reconcile_frames self a1 a2 = Raise e.
Proof.
  intros Ht Hm Hlt Hc Hck Hmiss.
  pose proof (matches_in_source t s Hm) as Hs.
  rewrite reconcile_frames_unfold.
  destruct (for_each_copy_raises self (columns a2) (both_row t s) c) as [e He].
  - by apply in2_a2.
  - rewrite skip_iff. intros [?|Hp]; [done|]. subst c. by destruct fresh2.
  - by rewrite (both_row_labels t s Ht Hs).
  - intros col ? ?. by apply copy_targets_present.
  - destruct (map_res_Raise (update_row self a2) (rows merged) (both_row t s) e)
      as [e' ->]; [| |by eexists].
    + rewrite merged_rows. apply list_elem_of_In, in_flat_map.
      exists t. split; [by apply list_elem_of_In|].
      apply list_elem_of_In. rewrite (merge_row_ann t Ht).
      destruct (matches d2 keys t) as [|s0 ms] eqn:Em.
      * by apply elem_of_nil in Hm.
      * by apply list_elem_of_fmap_2.
    + rewrite (update_row_both t s Ht Hs).
      by rewrite (proj2 (Z.ltb_lt _ _) Hlt).
Qed.
End core.

(** ** The method on the heap *)

Section method.
Context (lower : pystr → pystr) (self : DataFrameUpdater).
Context (df1 df2 : loc) (h : heap) (d1 d2 : DataFrame).
Context (Hdf1 : h !! df1 = Some d1) (Hdf2 : h !! df2 = Some d2).

Local Abbreviation annotated_heap := (annotated_heap lower self df1 df2 h d1 d2).

Lemma method_invalid :
  has_required self d1 d2 = false →
  compare_and_update_dataframe lower self df1 df2 h = Some (Ok df1, h).
Proof.
  intros Hreq. unfold compare_and_update_dataframe.
  rewrite Hdf1, Hdf2. simpl. by rewrite Hreq.
Qed.

Lemma annotated_heap_length : length annotated_heap = length h.
Proof. unfold annotated_heap. by rewrite !length_insert. Qed.

Lemma annotated_heap_df2 :
  annotated_heap !! df2 = Some (annotated lower self d2).
Proof.
  unfold annotated_heap. apply list_lookup_insert_eq.
  rewrite length_insert. by eapply lookup_lt_Some.
Qed.

Lemma annotated_heap_df1 :
  annotated_heap !! df1 = Some (annotated lower self d1).
Proof.
  unfold annotated_heap. destruct (decide (df1 = df2)) as [->|Hne].
  - assert (d1 = d2) as -> by congruence.
    apply list_lookup_insert_eq. rewrite length_insert.
    by eapply lookup_lt_Some.
  - rewrite list_lookup_insert_ne by done.
    apply list_lookup_insert_eq. by eapply lookup_lt_Some.
Qed.

Lemma annotated_heap_other l :
  l ≠ df1 → l ≠ df2 → annotated_heap !! l = h !! l.
Proof.
  intros ? ?. unfold annotated_heap.
  by rewrite !list_lookup_insert_ne.
Qed.

Lemma method_valid :
  has_required self d1 d2 = true →
  wf_frame d1 → wf_frame d2 →
  priority_lbl ∉ columns d1 → priority_lbl ∉ columns d2 →
  compare_and_update_dataframe lower self df1 df2 h =
    Some match reconcile_frames self (annotated lower self d1)
                                (annotated lower self d2) with
         | Raise e => (Raise e, annotated_heap)
         | Ok out => (Ok (length h), annotated_heap ++ [out])
         end.
Proof.
  intros Hreq Hwf1 Hwf2 Hp1 Hp2.
  destruct (required_columns self d1 d2 Hreq) as [(_ & _ & Hv1) (_ & _ & Hv2)].
  pose proof annotated_heap_df1 as Ha1.
  pose proof annotated_heap_df2 as Ha2.
  pose proof annotated_heap_length as Hlen.
  unfold annotated_heap in *.
  unfold compare_and_update_dataframe.
  rewrite Hdf1, Hdf2. simpl. rewrite Hreq. simpl.
  rewrite (annotate_fresh lower self d1 Hwf1 Hv1 Hp1).
  assert (∃ d, <[df1:=annotated lower self d1]> h !! df2 = Some d ∧
               annotate lower self d = Ok (annotated lower self d2))
    as (d & Hl & Han).
  { destruct (decide (df1 = df2)) as [->|Hne].
    - assert (d1 = d2) as -> by congruence.
      exists (annotated lower self d2). split.
      + apply list_lookup_insert_eq. by eapply lookup_lt_Some.
      + by apply annotate_again.
    - exists d2. split.
      + by rewrite list_lookup_insert_ne.
      + by apply annotate_fresh. }
  rewrite Hl. simpl. rewrite Han, Ha1, Ha2. simpl. rewrite Hlen.
  by destruct (reconcile_frames _ _ _).
Qed.
End method.

Lemma method_spec lower self df1 df2 (h : heap) d1 d2 r h' out :
  h !! df1 = Some d1 → h !! df2 = Some d2 →
  hygienic self d1 d2 → has_required self d1 d2 = true →
  compare_and_update_dataframe lower self df1 df2 h = Some (Ok r, h') →
  h' !! r = Some out →
  r = length h ∧
  h' = annotated_heap lower self df1 df2 h d1 d2 ++ [out] ∧
  columns out = columns d1 ∧
  rows out = reconciled_rows lower self d1 d2.
Proof.
  intros H1 H2 Hhyg Hreq Hcall Hout.
  pose proof Hhyg as (Hwf1 & Hwf2 & Hp1 & Hp2 & _).
  rewrite (method_valid lower self df1 df2 h d1 d2 H1 H2 Hreq Hwf1 Hwf2 Hp1 Hp2)
    in Hcall.
  destruct (reconcile_frames _ _ _) as [o|e] eqn:Erec; [|done].
  injection Hcall as <- <-.
  rewrite lookup_app_r in Hout
    by (by rewrite (annotated_heap_length lower self df1 df2 h d1 d2)).
  rewrite (annotated_heap_length lower self df1 df2 h d1 d2), Nat.sub_diag in Hout.
  injection Hout as ->.
  destruct (reconcile_frames_spec lower self d1 d2 Hhyg Hreq out Erec) as [? ?].
  done.
Qed.


(** The defect behind the exception: a source record that outranks a
    target record of its key, together with a source column [c] for
    which the merged frame has no label [c_df2], makes the call raise,
    after both arguments received their priority column. *)
Lemma source_only_column_raises lower self df1 df2 (h : heap) d1 d2 t s c :
  h !! df1 = Some d1 → h !! df2 = Some d2 →
  hygienic self d1 d2 → has_required self d1 d2 = true →
  t ∈ rows d1 → s ∈ matches d2 (key_cols self) t →
  row_priority lower self t < row_priority lower self s →
  c ∈ columns d2 → c ∉ key_cols self →
  c ++ suffix_df2 ∉ working_labels self d1 d2 →
  ∃ e, compare_and_update_dataframe lower self df1 df2 h =
         Some (Raise e, annotated_heap lower self df1 df2 h d1 d2).
Proof.
  intros H1 H2 Hhyg Hreq Ht Hs Hlt Hc Hck Hmiss.
  pose proof Hhyg as (Hwf1 & Hwf2 & Hp1 & Hp2 & _).
  rewrite (method_valid lower self df1 df2 h d1 d2 H1 H2 Hreq Hwf1 Hwf2 Hp1 Hp2).
  destruct (reconcile_frames_raises lower self d1 d2 Hhyg Hreq t s c
              Ht Hs Hlt Hc Hck Hmiss) as [e ->].
  by exists e.
Qed.

(** ** Facts about the reconciled records *)

Lemma overwrite_get self (t s : Series) c v :
  NoDup t.*1 → series_get t c = Ok v →
  series_get (overwrite self t s) c =
    Ok match series_get s c with
       | Ok w => if decide (c ∈ key_cols self) then v else w
       | Raise _ => v
       end.
Proof.
  intros Hnd Hget. apply series_get_elem.
  - unfold overwrite. by rewrite <-list_fmap_compose.
  - unfold overwrite. apply list_elem_of_fmap. exists (c, v).
    split; [done|]. by apply series_get_Ok.
Qed.




Lemma reconciled_rows_length lower self (d1 d2 : DataFrame) :
  length (reconciled_rows lower self d1 d2) =
    sum_list ((λ t, length (matches d2 (key_cols self) t) `max` 1)%nat <$> rows d1).
Proof.
  unfold reconciled_rows. induction (rows d1) as [|t l IH]; [done|].
  cbn [flat_map]. rewrite length_app, IH. csimpl. f_equal.
  unfold reconciled. destruct (matches d2 (key_cols self) t) as [|s0 ms]; [done|].
  rewrite length_fmap. simpl. lia.
Qed.




Lemma PRIORITY_MAP_lookup (k : pystr) :
  PRIORITY_MAP !! k =
    if decide (k = u "важно") then Some 5
    else if decide (k = u "очень важно") then Some 4
    else if decide (k = u "средне") then Some 3
    else if decide (k = u "не очень") then Some 2
    else if decide (k = u "пусто") then Some 1
    else None.
Proof.
  unfold PRIORITY_MAP. cbn [list_to_map foldr uncurry fst snd].
  repeat (case_decide;
          [subst k; by rewrite ?lookup_insert_eq
          |rewrite lookup_insert_ne by done]).
  apply lookup_empty.
Qed.

(** ** The scenarios of the design document, evaluated *)

Example utf8_decode_cyrillic :
  u "важно" = [1074; 1072; 1078; 1085; 1086]%N.
Proof. reflexivity. Qed.

Example get_priority_upper_case :
  get_priority str_lower updater (str "ОЧЕНЬ Важно") = 4.
Proof. by vm_compute. Qed.

Example scenario_replacement :
  compare_and_update_dataframe str_lower updater 0%nat 1%nat [target1; source1]
  = Some (Ok 2%nat, [annotated str_lower updater target1;
                     annotated str_lower updater source1;
                     output1]).
Proof. by vm_compute. Qed.

Example scenario_empty_source :
  compare_and_update_dataframe str_lower updater 0%nat 1%nat
    [target2; frame cols4 []]
  = Some (Ok 2%nat, [annotated str_lower updater target2;
                     annotated str_lower updater (frame cols4 []);
                     target2]).
Proof. by vm_compute. Qed.

Example scenario_source_without_columns :
  compare_and_update_dataframe str_lower updater 0%nat 1%nat
    [target2; frame [] []]
  = Some (Ok 0%nat, [target2; frame [] []]).
Proof. by vm_compute. Qed.

(** * The properties stated by the design document *)

(** C10: the default ranking maps a value whose lower-cased string is
    "важно" to 5, "очень важно" to 4, "средне" to 3, "не очень" to 2,
    "пусто" to 1 and every other string to 0; so "важно" strictly
    outranks "очень важно". *)
Theorem C10_default_ranking (lower : pystr → pystr) (ip name value : label) (v : cell) :
  get_priority lower (DataFrameUpdater_init ip name value None) v =
    (if decide (lower (py_str v) = u "важно") then 5
     else if decide (lower (py_str v) = u "очень важно") then 4
     else if decide (lower (py_str v) = u "средне") then 3
     else if decide (lower (py_str v) = u "не очень") then 2
     else if decide (lower (py_str v) = u "пусто") then 1
     else 0) ∧
  get_priority str_lower (DataFrameUpdater_init ip name value None) (str "очень важно")
    < get_priority str_lower (DataFrameUpdater_init ip name value None) (str "важно").
Proof.
  split.
  - unfold get_priority. cbn [priority_map DataFrameUpdater_init default].
    rewrite PRIORITY_MAP_lookup. by repeat case_decide.
  - by vm_compute.
Qed.

(** C5: when a key column or the value column is missing from the target
    or from the source, the method returns the target object itself, the
    heap is left as it was, and nothing is raised. *)
Theorem C5_missing_column_returns_target (lower : pystr → pystr)
    (self : DataFrameUpdater) (df1 df2 : loc) (h : heap) (d1 d2 : DataFrame)
    (c : label) :
  h !! df1 = Some d1 → h !! df2 = Some d2 →
  c ∈ [ip_col self; computer_name_col self; value_col self] →
  c ∉ columns d1 ∨ c ∉ columns d2 →
  compare_and_update_dataframe lower self df1 df2 h = Some (Ok df1, h).
Proof.
  intros H1 H2 Hc Hmiss. apply (method_invalid lower self df1 df2 h d1 d2 H1 H2).
  apply not_true_is_false. intros Hreq.
  destruct (required_columns self d1 d2 Hreq) as [(? & ? & ?) (? & ? & ?)].
  rewrite !elem_of_cons, elem_of_nil in Hc.
  destruct Hc as [->|[->|[->|[]]]]; tauto.
Qed.

(** C5 at a source that lacks the value column. *)
Lemma C5_witness :
  compare_and_update_dataframe str_lower updater 0%nat 1%nat [target1; source_no_value]
  = Some (Ok 0%nat, [target1; source_no_value]).
Proof.
  apply (C5_missing_column_returns_target str_lower updater 0%nat 1%nat
           [target1; source_no_value] target1 source_no_value (u "value")).
  - reflexivity.
  - reflexivity.
  - by_eval.
  - right. by_eval.
Defined.

(** C6, as stated, fails: the code lower-cases the value but does not
    trim it.  A value with a leading space scores 0 in the code and 1
    under the document's [normalize]. *)
Lemma C6_counterexample :
  get_priority str_lower updater (str " пусто") = 0 ∧
  documented_priority str_lower updater (str " пусто") = 1 ∧
  get_priority str_lower updater (str " пусто")
    ≠ documented_priority str_lower updater (str " пусто").
Proof. by vm_compute. Qed.

(** C6, amended: the priority score of a value is the rank of the
    lower-cased (not trimmed) string of the value, and 0 when that string
    is not ranked; a missing value is looked up as the string "nan", which
    the default ranking does not rank, so it scores 0 there; every rank of
    the default ranking is at least 1, hence above the score 0; and the
    annotation gives every record of a frame the score of its value. *)
Theorem C6_priority_score (lower : pystr → pystr) (self : DataFrameUpdater) (v : cell) :
  get_priority lower self v = default 0 (priority_map self !! lower (py_str v)) ∧
  (priority_map self !! lower (py_str v) = None → get_priority lower self v = 0) ∧
  get_priority lower self VNaN = default 0 (priority_map self !! lower (u "nan")) ∧
  get_priority str_lower updater VNaN = 0 ∧
  (∀ k rank, PRIORITY_MAP !! k = Some rank → 1 ≤ rank) ∧
  (∀ d, wf_frame d → value_col self ∈ columns d → priority_lbl ∉ columns d →
        annotate lower self d = Ok (annotated lower self d) ∧
        ∀ r w, r ∈ rows d → series_get r (value_col self) = Ok w →
               r ++ [(priority_lbl, VInt (get_priority lower self w))]
                 ∈ rows (annotated lower self d)).
Proof.
  split; [done|]. split; [by unfold get_priority; intros ->|].
  split; [done|]. split; [by vm_compute|]. split.
  - intros k rank. rewrite PRIORITY_MAP_lookup.
    repeat case_decide; intros [= <-]; lia.
  - intros d Hwf Hv Hp. split; [by apply annotate_fresh|].
    intros r w Hr Hw. unfold annotated. cbn [rows].
    apply list_elem_of_fmap. exists r. split; [|done].
    unfold annotate_row, row_priority. by rewrite Hw.
Qed.

(** C7 fails on the code: with a source column that the target does not
    have and a source record of strictly higher priority, the loop of
    [update_row] reads the label [extra_df2], which the merged row does
    not have, and the method raises [KeyError]. *)
Theorem C7_source_only_column_raises :
  wf_frame target1 ∧ wf_frame source_extra ∧
  has_required updater target1 source_extra = true ∧
  ∃ h', compare_and_update_dataframe str_lower updater 0%nat 1%nat
          [target1; source_extra]
        = Some (Raise (KeyError (u "extra_df2")), h').
Proof.
  split; [by_eval|]. split; [by_eval|]. split; [by vm_compute|].
  eexists. by vm_compute.
Qed.

(** C4, as stated, fails: after a call that passes validation, both
    frames of the caller carry a new column [priority]. *)
Lemma C4_counterexample :
  ∃ r h',
    compare_and_update_dataframe str_lower updater 0%nat 1%nat [target1; source1]
      = Some (Ok r, h') ∧
    h' !! 0%nat = Some (annotated str_lower updater target1) ∧
    h' !! 1%nat = Some (annotated str_lower updater source1) ∧
    annotated str_lower updater target1 ≠ target1 ∧
    annotated str_lower updater source1 ≠ source1.
Proof.
  eexists _, _. split; [by vm_compute|].
  split; [by vm_compute|]. split; [by vm_compute|].
  split; intros H; vm_compute in H; discriminate H.
Qed.

(** C4, amended: when validation fails the method returns the target
    object itself and changes nothing; when it succeeds, the method
    appends the column [priority], holding every record's score, to
    both frames of the caller (their other columns and all other
    objects are left as they were), and a result, when one is returned,
    is a new object. *)
Theorem C4_inputs_annotated_in_place (lower : pystr → pystr)
    (self : DataFrameUpdater) (df1 df2 : loc) (h : heap) (d1 d2 : DataFrame) :
  h !! df1 = Some d1 → h !! df2 = Some d2 →
  wf_frame d1 → wf_frame d2 →
  priority_lbl ∉ columns d1 → priority_lbl ∉ columns d2 →
  if has_required self d1 d2 then
    ∃ o h',
      compare_and_update_dataframe lower self df1 df2 h = Some (o, h') ∧
      h' !! df1 = Some (annotated lower self d1) ∧
      h' !! df2 = Some (annotated lower self d2) ∧
      (∀ l, l ≠ df1 → l ≠ df2 → (l < length h)%nat → h' !! l = h !! l) ∧
      (∀ r, o = Ok r → h !! r = None ∧ is_Some (h' !! r))
  else
    compare_and_update_dataframe lower self df1 df2 h = Some (Ok df1, h).
Proof.
  intros H1 H2 Hwf1 Hwf2 Hp1 Hp2.
  destruct (has_required self d1 d2) eqn:Hreq;
    [|by apply (method_invalid lower self df1 df2 h d1 d2)].
  rewrite (method_valid lower self df1 df2 h d1 d2 H1 H2 Hreq Hwf1 Hwf2 Hp1 Hp2).
  pose proof (annotated_heap_df1 lower self df1 df2 h d1 d2 H1 H2) as Ha1.
  pose proof (annotated_heap_df2 lower self df1 df2 h d1 d2 H2) as Ha2.
  pose proof (annotated_heap_length lower self df1 df2 h d1 d2) as Hlen.
  destruct (reconcile_frames _ _ _) as [out|e]; eexists _, _; (split; [done|]).
  - split; [by rewrite lookup_app_l by (by eapply lookup_lt_Some)|].
    split; [by rewrite lookup_app_l by (by eapply lookup_lt_Some)|].
    split.
    + intros l ? ? Hl. rewrite lookup_app_l by lia.
      by apply annotated_heap_other.
    + intros r [= <-]. split; [by apply lookup_ge_None|].
      exists out. rewrite lookup_app_r by lia.
      by rewrite Hlen, Nat.sub_diag.
  - split; [done|]. split; [done|]. split; [|done].
    intros l ? ? _. by apply annotated_heap_other.
Qed.

(** C4, amended, at the first scenario of the design document. *)
Lemma C4_witness :
  ∃ o h',
    compare_and_update_dataframe str_lower updater 0%nat 1%nat [target1; source1]
      = Some (o, h') ∧
    h' !! 0%nat = Some (annotated str_lower updater target1) ∧
    h' !! 1%nat = Some (annotated str_lower updater source1) ∧
    (∀ l, l ≠ 0%nat → l ≠ 1%nat → (l < 2)%nat → h' !! l = [target1; source1] !! l) ∧
    (∀ r, o = Ok r → [target1; source1] !! r = None ∧ is_Some (h' !! r)).
Proof.
  apply (C4_inputs_annotated_in_place str_lower updater 0%nat 1%nat
           [target1; source1] target1 source1).
  - reflexivity.
  - reflexivity.
  - by_eval.
  - by_eval.
  - by_eval.
  - by_eval.
Defined.







(** C2, as stated, fails: the matches of one target record are not
    folded into one record.  With a target record of rank 1 and two
    matching source records of ranks 5 and 3, in that order, the code
    returns two records, and the second one took the values of the
    rank-3 source record: it was compared with the original target
    record, not with the rank-5 record that a cumulative scan would have
    reached by then. *)
Lemma C2_counterexample :
  ∃ h' out,
    compare_and_update_dataframe str_lower updater 0%nat 1%nat
      [target1; source_two_matches] = Some (Ok 2%nat, h') ∧
    h' !! 2%nat = Some out ∧
    rows out = [zip cols4 [str "10.0.0.1"; str "PC-1"; str "важно"; str "b"];
                zip cols4 [str "10.0.0.1"; str "PC-1"; str "средне"; str "c"]] ∧
    documented_rows str_lower updater target1 source_two_matches
      = [zip cols4 [str "10.0.0.1"; str "PC-1"; str "важно"; str "b"]] ∧
    rows out ≠ documented_rows str_lower updater target1 source_two_matches.
Proof.
  eexists _, _. split; [vm_compute; reflexivity|]. split; [reflexivity|].
  split; [vm_compute; reflexivity|]. split; [vm_compute; reflexivity|].
  intros H. vm_compute in H. discriminate H.
Qed.

(** C2, amended: the matches of a target record are resolved
    deterministically and independently of each other: the returned
    frame holds, for each target record in target order, one record per
    source record with its key, in source order, each obtained by
    comparing that source record with the original target record (and
    the target record itself when there is no match). *)
Theorem C2_matches_resolved_independently (lower : pystr → pystr)
    (self : DataFrameUpdater) (df1 df2 : loc) (h : heap) (d1 d2 : DataFrame)
    (r : loc) (h' : heap) (out : DataFrame) :
  h !! df1 = Some d1 → h !! df2 = Some d2 →
  hygienic self d1 d2 → has_required self d1 d2 = true →
  compare_and_update_dataframe lower self df1 df2 h = Some (Ok r, h') →
  h' !! r = Some out →
  rows out =
    flat_map (λ t, match matches d2 [ip_col self; computer_name_col self] t with
                   | [] => [t]
                   | ms => resolve lower self t <$> ms
                   end) (rows d1).
Proof.
  intros H1 H2 Hhyg Hreq Hcall Hout.
  by destruct (method_spec lower self df1 df2 h d1 d2 r h' out
                 H1 H2 Hhyg Hreq Hcall Hout) as (_ & _ & _ & ->).
Qed.

(** C2, amended, at a target record with two matching source records. *)
Lemma C2_witness :
  rows output_two_matches =
    flat_map (λ t, match matches source_two_matches
                           [ip_col updater; computer_name_col updater] t with
                   | [] => [t]
                   | ms => resolve str_lower updater t <$> ms
                   end) (rows target1).
Proof.
  eapply (C2_matches_resolved_independently str_lower updater 0%nat 1%nat
            [target1; source_two_matches] target1 source_two_matches 2%nat).
  - reflexivity.
  - reflexivity.
  - by_eval.
  - vm_compute; reflexivity.
  - vm_compute; reflexivity.
  - reflexivity.
Defined.

(** C3, as stated, fails: a target record with two matching source
    records gives two output records, so the row count grows. *)
Lemma C3_counterexample :
  ∃ h' out,
    compare_and_update_dataframe str_lower updater 0%nat 1%nat
      [target1; source_two_matches] = Some (Ok 2%nat, h') ∧
    h' !! 2%nat = Some out ∧
    has_required updater target1 source_two_matches = true ∧
    length (rows target1) = 1%nat ∧
    length (rows out) = 2%nat.
Proof.
  eexists _, _. split; [vm_compute; reflexivity|]. split; [reflexivity|].
  split; [vm_compute; reflexivity|]. split; vm_compute; reflexivity.
Qed.

(** C3, amended: when validation fails the method returns the target
    object and leaves the heap as it was; when it succeeds, a returned
    frame has exactly the target's columns, in the target's order, and
    as many rows as the target records have matches, a record without
    match counting once; so it has the target's row count when no target
    record has more than one match. *)
Theorem C3_columns_and_row_count (lower : pystr → pystr) (self : DataFrameUpdater)
    (df1 df2 : loc) (h : heap) (d1 d2 : DataFrame)
    (r : loc) (h' : heap) (out : DataFrame) :
  h !! df1 = Some d1 → h !! df2 = Some d2 →
  hygienic self d1 d2 →
  compare_and_update_dataframe lower self df1 df2 h = Some (Ok r, h') →
  h' !! r = Some out →
  if has_required self d1 d2 then
    columns out = columns d1 ∧
    length (rows out) =
      sum_list ((λ t, length (matches d2 (key_cols self) t) `max` 1)%nat
                  <$> rows d1) ∧
    ((∀ t, t ∈ rows d1 → (length (matches d2 (key_cols self) t) ≤ 1)%nat) →
     length (rows out) = length (rows d1))
  else r = df1 ∧ h' = h ∧ out = d1.
Proof.
  intros H1 H2 Hhyg Hcall Hout.
  destruct (has_required self d1 d2) eqn:Hreq.
  - destruct (method_spec lower self df1 df2 h d1 d2 r h' out
                H1 H2 Hhyg Hreq Hcall Hout) as (_ & _ & Hcols & Hrows).
    split; [done|]. rewrite Hrows, reconciled_rows_length. split; [done|].
    intros Hone. induction (rows d1) as [|t l IH]; [done|].
    csimpl. rewrite IH by (intros; apply Hone; by right).
    assert (length (matches d2 (key_cols self) t) ≤ 1)%nat by (apply Hone; by left).
    lia.
  - rewrite (method_invalid lower self df1 df2 h d1 d2 H1 H2 Hreq) in Hcall.
    injection Hcall as <- <-. split; [done|]. split; [done|]. congruence.
Qed.

(** C3, amended, at a target with one matched and one unmatched record. *)
Lemma C3_witness :
  columns output2 = columns target2 ∧
  length (rows output2) =
    sum_list ((λ t, length (matches source1 (key_cols updater) t) `max` 1)%nat
                <$> rows target2) ∧
  ((∀ t, t ∈ rows target2 →
         (length (matches source1 (key_cols updater) t) ≤ 1)%nat) →
   length (rows output2) = length (rows target2)).
Proof.
  eapply (C3_columns_and_row_count str_lower updater 0%nat 1%nat
            [target2; source1] target2 source1 2%nat).
  - reflexivity.
  - reflexivity.
  - by_eval.
  - vm_compute; reflexivity.
  - reflexivity.
Defined.




(** * Further properties of the method *)

(** ** When and how the method raises *)

Lemma map_res_Raise_inv {A B} (f : A → res B) l e :
  map_res f l = Raise e → ∃ x, x ∈ l ∧ f x = Raise e.
Proof.
  induction l as [|y l IH]; csimpl; [done|].
  destruct (f y) as [z|e1] eqn:Ey; simpl.
  - destruct (map_res f l) as [zs|e2] eqn:E; simpl; [done|].
    intros [= ->]. destruct (IH eq_refl) as (x & Hx & Hf).
    exists x. split; [by right|done].
  - intros [= ->]. exists y. split; [by left|done].
Qed.

Lemma for_each_copy_Raise_inv self D (S : Series) e :
  for_each (copy_from_df2 self) D S = Raise e →
  (∀ col, col ∈ D →
          col ∉ [ip_col self; computer_name_col self; priority_lbl] →
          col ∈ S.*1) →
  ∃ c, c ∈ D ∧ (c ∉ [ip_col self; computer_name_col self; priority_lbl]) ∧
       e = KeyError (c ++ suffix_df2) ∧ (c ++ suffix_df2 ∉ S.*1).
Proof.
  revert S. induction D as [|col D IH]; intros S Hrun Hin; cbn [for_each] in Hrun;
    [done|].
  destruct (copy_from_df2 self S col) as [S1|e1] eqn:E; simpl in Hrun.
  - assert (S1.*1 = S.*1) as Hlab.
    { unfold copy_from_df2 in E. case_decide as Hcol.
      - destruct (series_get S (col ++ suffix_df2)) as [v|?]; simpl in E; [|done].
        injection E as <-. apply series_set_labels, Hin; [by left|done].
      - by injection E as <-. }
    destruct (IH S1 Hrun) as (c & Hc & Hsk & He & Hn).
    { intros c ? ?. rewrite Hlab. apply Hin; [by right|done]. }
    exists c. rewrite <-Hlab. split; [by right|done].
  - injection Hrun as ->. unfold copy_from_df2 in E. case_decide as Hcol; [|done].
    destruct (series_get S (col ++ suffix_df2)) as [v|e1] eqn:Ev; simpl in E; [done|].
    injection E as ->. apply series_get_Raise in Ev as [-> Hn].
    exists col. split; [by left|done].
Qed.

Section raising.
Context (lower : pystr → pystr) (self : DataFrameUpdater).
Context (d1 d2 : DataFrame).
Context (Hhyg : hygienic self d1 d2).
Context (Hreq : has_required self d1 d2 = true).

Local Abbreviation keys := (key_cols self).
Local Abbreviation a1 := (annotated lower self d1).
Local Abbreviation a2 := (annotated lower self d2).
Local Abbreviation merged := (merge_left a1 a2 keys).
Local Abbreviation left_row := (left_only_row lower self d1 d2).
Local Abbreviation both_row := (matched_row lower self d1 d2).

Lemma merged_row_match S :
  S ∈ rows merged →
  ∃ t, t ∈ rows d1 ∧
       (S = left_row t ∨ ∃ s, s ∈ matches d2 keys t ∧ S = both_row t s).
Proof.
  rewrite (merged_rows lower self d1 d2), list_elem_of_In, in_flat_map.
  intros (t & Ht%list_elem_of_In & HS%list_elem_of_In).
  exists t. split; [done|].
  rewrite (merge_row_ann lower self d1 d2 Hhyg Hreq t Ht) in HS.
  destruct (matches d2 keys t) as [|s0 ms] eqn:Em.
  - apply list_elem_of_singleton in HS. by left.
  - apply list_elem_of_fmap in HS as (s & -> & Hs). right. by exists s.
Qed.

(** An exception of the steps after the annotation stems from a source
    record that outranks a target record of its key and from a source
    column, absent from the target, whose suffixed label is read. *)
Lemma reconcile_frames_Raise_inv e :
  reconcile_frames self a1 a2 = Raise e →
  ∃ t s c,
    t ∈ rows d1 ∧ s ∈ matches d2 keys t ∧
    row_priority lower self t < row_priority lower self s ∧
    c ∈ columns d2 ∧ (c ∉ keys) ∧ (c ∉ columns d1) ∧
    (c ++ suffix_df2 ∉ columns merged) ∧
    e = KeyError (c ++ suffix_df2).
Proof.
  rewrite (reconcile_frames_unfold lower self d1 d2 Hhyg Hreq).
  destruct (map_res (update_row self a2) (rows merged)) as [rs|e'] eqn:Ers.
  - rewrite bind_Ok.
    destruct (map_res_total (project_target_row d1) rs) as [o ->]; [|done].
    intros Sf HSf.
    destruct (map_res_elem _ _ _ Sf Ers HSf) as (S & HS & Hrun).
    by destruct (updated_row_ok lower self d1 d2 Hhyg Hreq S Sf HS Hrun).
  - intros [= ->].
    apply map_res_Raise_inv in Ers as (S & HS & Hrun).
    apply merged_row_match in HS as (t & Ht & [->|(s & Hm & ->)]).
    { by rewrite (update_row_left lower self d1 d2 Hhyg t Ht) in Hrun. }
    pose proof (matches_in_source self d2 t s Hm) as Hs.
    rewrite (update_row_both lower self d1 d2 Hhyg Hreq t s Ht Hs) in Hrun.
    destruct (row_priority lower self t <? row_priority lower self s) eqn:Hlt;
      [|done].
    apply Z.ltb_lt in Hlt.
    apply for_each_copy_Raise_inv in Hrun as (c & Hc & Hsk & -> & Hn).
    2:{ intros col ? ?. by apply (copy_targets_present lower self d1 d2 Hhyg). }
    rewrite (both_row_labels lower self d1 d2 Hhyg t s Ht Hs) in Hn.
    assert ((c ∉ keys) ∧ c ≠ priority_lbl) as [Hck Hcp].
    { rewrite (skip_iff lower self) in Hsk. tauto. }
    assert (c ∈ columns d2) as Hc2.
    { apply elem_of_app in Hc as [?|Hp]; [done|].
      by apply list_elem_of_singleton in Hp. }
    exists t, s, c. repeat split; try done.
    intros Hc1. apply Hn.
    rewrite (merged_columns lower self d1 d2), !elem_of_app. right. left.
    rewrite <-(rename_shared lower self d1 c (in1_a1 lower self d1 c Hc1)).
    apply list_elem_of_fmap_2.
    by apply in_right_labels; [apply in2_a2|].
Qed.
End raising.

(** The two outcomes of a call that passes validation. *)
Lemma method_cases lower self df1 df2 (h : heap) d1 d2 :
  h !! df1 = Some d1 → h !! df2 = Some d2 →
  hygienic self d1 d2 → has_required self d1 d2 = true →
  (∃ out,
     compare_and_update_dataframe lower self df1 df2 h =
       Some (Ok (length h), annotated_heap lower self df1 df2 h d1 d2 ++ [out]) ∧
     columns out = columns d1 ∧
     rows out = reconciled_rows lower self d1 d2) ∨
  (∃ t s c,
     compare_and_update_dataframe lower self df1 df2 h =
       Some (Raise (KeyError (c ++ suffix_df2)),
             annotated_heap lower self df1 df2 h d1 d2) ∧
     t ∈ rows d1 ∧ s ∈ matches d2 (key_cols self) t ∧
     row_priority lower self t < row_priority lower self s ∧
     c ∈ columns d2 ∧ (c ∉ key_cols self) ∧ (c ∉ columns d1) ∧
     (c ++ suffix_df2 ∉ working_labels self d1 d2)).
Proof.
  intros H1 H2 Hhyg Hreq.
  pose proof Hhyg as (Hwf1 & Hwf2 & Hp1 & Hp2 & _).
  rewrite (method_valid lower self df1 df2 h d1 d2 H1 H2 Hreq Hwf1 Hwf2 Hp1 Hp2).
  destruct (reconcile_frames _ _ _) as [out|e] eqn:Erec.
  - left. exists out. split; [done|].
    by apply (reconcile_frames_spec lower self d1 d2 Hhyg Hreq).
  - right.
    apply (reconcile_frames_Raise_inv lower self d1 d2 Hhyg Hreq) in Erec
      as (t & s & c & ? & ? & ? & ? & ? & ? & ? & ->).
    by exists t, s, c.
Qed.

Lemma lookup_fresh_object (h : heap) (out : DataFrame) :
  (h ++ [out]) !! length h = Some out.
Proof. by rewrite lookup_app_r, Nat.sub_diag by lia. Qed.

(** ** Facts about one resolved pair *)


Lemma fmap_constant {A B} (f : A → B) (l : list A) (y : B) :
  (∀ x, x ∈ l → f x = y) → f <$> l = replicate (length l) y.
Proof.
  induction l as [|x l IH]; csimpl; intros Hf; [done|].
  rewrite (Hf x) by (by left). f_equal. apply IH. intros. apply Hf. by right.
Qed.

Lemma reconciled_rows_inv lower self (d1 d2 : DataFrame) (o : Series) :
  o ∈ reconciled_rows lower self d1 d2 →
  ∃ t, t ∈ rows d1 ∧
       (o = t ∧ matches d2 (key_cols self) t = [] ∨
        ∃ s, s ∈ matches d2 (key_cols self) t ∧ o = resolve lower self t s).
Proof.
  unfold reconciled_rows. rewrite list_elem_of_In, in_flat_map.
  intros (t & Ht%list_elem_of_In & Ho%list_elem_of_In).
  exists t. split; [done|]. unfold reconciled in Ho.
  destruct (matches d2 (key_cols self) t) as [|s0 ms] eqn:Em.
  - apply list_elem_of_singleton in Ho. by left.
  - apply list_elem_of_fmap in Ho as (s & -> & Hs). right. by exists s.
Qed.

Lemma resolve_provenance lower self (t s : Series) c v :
  (c, v) ∈ resolve lower self t s →
  (c, v) ∈ t ∨
  ((c, v) ∈ s ∧ (c ∉ key_cols self) ∧
   row_priority lower self t < row_priority lower self s).
Proof.
  unfold resolve.
  destruct (row_priority lower self t <? row_priority lower self s) eqn:Hlt;
    [|by left].
  apply Z.ltb_lt in Hlt. unfold overwrite.
  intros ([c' v'] & [= -> ->] & Hin)%list_elem_of_fmap. simpl.
  destruct (series_get s c') as [w|?] eqn:Ew; [|by left].
  case_decide; [by left|]. right. split; [|done]. by apply series_get_Ok.
Qed.

Section resolved.
Context (lower : pystr → pystr) (self : DataFrameUpdater).
Context (d1 d2 : DataFrame).
Context (Hhyg : hygienic self d1 d2).
Context (Hreq : has_required self d1 d2 = true).

Local Abbreviation keys := (key_cols self).

Lemma resolve_key t s :
  t ∈ rows d1 → key_of keys (resolve lower self t s) = key_of keys t.
Proof.
  intros Ht. unfold resolve. destruct (_ <? _); [|done].
  unfold key_of. apply Forall_fmap_ext, Forall_forall. intros k Hk.
  pose proof (row_labels1 self d1 d2 Hhyg t Ht) as Hl.
  destruct (series_get_is_Ok t k) as [v Hv].
  { rewrite Hl. by apply (keys_in1 self d1 d2 Hreq). }
  rewrite (overwrite_get self t s k v); [|rewrite Hl; apply Hhyg|done].
  rewrite Hv. destruct (series_get s k); [|done]. by rewrite decide_True.
Qed.



End resolved.

(** ** Calls on arguments that already carry their priority column *)

Lemma has_required_intro self (a b : DataFrame) :
  (∀ c, c ∈ [ip_col self; computer_name_col self; value_col self] →
        c ∈ columns a ∧ c ∈ columns b) →
  has_required self a b = true.
Proof.
  intros H. unfold has_required. cbn [forallb].
  destruct (H (ip_col self)) as [? ?]; [by left|].
  destruct (H (computer_name_col self)) as [? ?]; [right; by left|].
  destruct (H (value_col self)) as [? ?]; [right; right; by left|].
  by rewrite !bool_decide_eq_true_2.
Qed.

Lemma has_required_elem self (a b : DataFrame) c :
  has_required self a b = true →
  c ∈ [ip_col self; computer_name_col self; value_col self] →
  c ∈ columns a ∧ c ∈ columns b.
Proof.
  intros Hreq.
  destruct (required_columns self a b Hreq) as [(? & ? & ?) (? & ? & ?)].
  rewrite !elem_of_cons, elem_of_nil. by intros [->|[->|[->|[]]]].
Qed.

Lemma annotate_either lower self (d x : DataFrame) :
  wf_frame d → value_col self ∈ columns d → priority_lbl ∉ columns d →
  x = d ∨ x = annotated lower self d →
  annotate lower self x = Ok (annotated lower self d).
Proof.
  intros Hwf Hv Hp [->| ->]; [by apply annotate_fresh|by apply annotate_again].
Qed.

Lemma columns_either lower self (d x : DataFrame) c :
  x = d ∨ x = annotated lower self d → c ∈ columns d → c ∈ columns x.
Proof. intros [->| ->] Hc; [done|]. apply elem_of_app. by left. Qed.

Lemma method_valid_gen lower self df1 df2 (h : heap) x1 x2 d1 d2 :
  h !! df1 = Some x1 → h !! df2 = Some x2 →
  x1 = d1 ∨ x1 = annotated lower self d1 →
  x2 = d2 ∨ x2 = annotated lower self d2 →
  (df1 = df2 → d1 = d2) →
  has_required self d1 d2 = true →
  wf_frame d1 → wf_frame d2 →
  priority_lbl ∉ columns d1 → priority_lbl ∉ columns d2 →
  compare_and_update_dataframe lower self df1 df2 h =
    Some match reconcile_frames self (annotated lower self d1)
                                (annotated lower self d2) with
         | Raise e => (Raise e, annotated_heap lower self df1 df2 h d1 d2)
         | Ok out => (Ok (length h),
                      annotated_heap lower self df1 df2 h d1 d2 ++ [out])
         end.
Proof.
  intros H1 H2 Hx1 Hx2 Halias Hreq Hwf1 Hwf2 Hp1 Hp2.
  destruct (required_columns self d1 d2 Hreq) as [(_ & _ & Hv1) (_ & _ & Hv2)].
  pose proof (lookup_lt_Some _ _ _ H1) as Hlt1.
  pose proof (lookup_lt_Some _ _ _ H2) as Hlt2.
  assert (has_required self x1 x2 = true) as Hreqx.
  { apply has_required_intro. intros c Hc.
    destruct (has_required_elem self d1 d2 c Hreq Hc).
    split; by eapply columns_either. }
  unfold annotated_heap, compare_and_update_dataframe.
  rewrite H1, H2. simpl. rewrite Hreqx. simpl.
  rewrite (annotate_either lower self d1 x1 Hwf1 Hv1 Hp1 Hx1).
  assert (∃ d, <[df1:=annotated lower self d1]> h !! df2 = Some d ∧
               annotate lower self d = Ok (annotated lower self d2))
    as (d & Hl & Han).
  { destruct (decide (df1 = df2)) as [Heq|Hne].
    - rewrite <-(Halias Heq), <-Heq. exists (annotated lower self d1). split.
      + by apply list_lookup_insert_eq.
      + by apply annotate_again.
    - exists x2. split; [by rewrite list_lookup_insert_ne|].
      by apply annotate_either. }
  rewrite Hl. simpl. rewrite Han.
  assert (<[df2:=annotated lower self d2]> (<[df1:=annotated lower self d1]> h)
            !! df1 = Some (annotated lower self d1)) as ->.
  { destruct (decide (df1 = df2)) as [Heq|Hne].
    - rewrite <-(Halias Heq), <-Heq.
      apply list_lookup_insert_eq. by rewrite length_insert.
    - rewrite list_lookup_insert_ne by done. by apply list_lookup_insert_eq. }
  simpl. rewrite list_lookup_insert_eq by (by rewrite length_insert).
  simpl. rewrite !length_insert.
  by destruct (reconcile_frames _ _ _).
Qed.

(** ** What a returned frame can contain, whatever the inputs *)

Lemma annotate_columns lower self (d y : DataFrame) :
  annotate lower self d = Ok y →
  priority_lbl ∈ columns y ∧
  (columns y = columns d ∨ columns y = columns d ++ [priority_lbl]).
Proof.
  unfold annotate. destruct (frame_get d (value_col self)) as [vals|?]; [|done].
  rewrite bind_Ok. intros [= <-]. unfold frame_set. cbn [columns].
  case_decide; [by split; [|left]|].
  split; [|by right]. apply elem_of_app. right. by left.
Qed.

Lemma annotate_columns_again lower self (d y : DataFrame) :
  priority_lbl ∈ columns d → annotate lower self d = Ok y →
  columns y = columns d.
Proof.
  intros Hp. unfold annotate.
  destruct (frame_get d (value_col self)) as [vals|?]; [|done].
  rewrite bind_Ok. intros [= <-]. unfold frame_set. cbn [columns].
  by rewrite decide_True.
Qed.

Lemma reconcile_frames_columns self (x1 x2 out : DataFrame) :
  reconcile_frames self x1 x2 = Ok out →
  columns out `sublist_of` columns x1 ∧
  ∀ c, c ∈ columns out → c ∉ dropped_labels.
Proof.
  unfold reconcile_frames.
  destruct (apply_rows _ _) as [upd|?]; [|done]. rewrite bind_Ok.
  cbv zeta. unfold select_columns.
  destruct (list_find _ _) as [[? ?]|]; [done|].
  destruct (map_res _ _) as [rs|?]; [|done]. rewrite bind_Ok.
  intros [= <-]. cbn [columns]. split; [apply sublist_filter|].
  intros c [Hc _]%list_elem_of_filter.
  unfold drop_columns in Hc. cbn [columns] in Hc.
  by apply list_elem_of_filter in Hc as [? _].
Qed.

Lemma method_Ok_inv lower self df1 df2 (h : heap) d1 d2 r h' :
  h !! df1 = Some d1 → h !! df2 = Some d2 →
  has_required self d1 d2 = true →
  compare_and_update_dataframe lower self df1 df2 h = Some (Ok r, h') →
  ∃ x1 x2 out,
    reconcile_frames self x1 x2 = Ok out ∧ h' !! r = Some out ∧
    (columns x1 = columns d1 ∨ columns x1 = columns d1 ++ [priority_lbl]).
Proof.
  intros H1 H2 Hreq. unfold compare_and_update_dataframe.
  rewrite H1, H2. simpl. rewrite Hreq. simpl.
  destruct (annotate lower self d1) as [y1|?] eqn:Ey1; [|done].
  destruct (<[df1:=y1]> h !! df2) as [z|] eqn:Ez; [|done]. simpl.
  destruct (annotate lower self z) as [y2|?] eqn:Ey2; [|done].
  destruct (<[df2:=y2]> (<[df1:=y1]> h) !! df1) as [x1|] eqn:Ex1; [|done]. simpl.
  destruct (<[df2:=y2]> (<[df1:=y1]> h) !! df2) as [x2|] eqn:Ex2; [|done]. simpl.
  destruct (reconcile_frames self x1 x2) as [out|?] eqn:Erec; [|done].
  intros [= <- <-]. exists x1, x2, out. split; [done|].
  split; [by rewrite lookup_app_r, Nat.sub_diag by lia|].
  pose proof (lookup_lt_Some _ _ _ H1) as Hlt1.
  destruct (annotate_columns lower self d1 y1 Ey1) as [Hp1 Hc1].
  destruct (decide (df1 = df2)) as [<-|Hne].
  - rewrite list_lookup_insert_eq in Ez by done. injection Ez as <-.
    rewrite list_lookup_insert_eq in Ex1 by (by rewrite length_insert).
    injection Ex1 as <-.
    by rewrite (annotate_columns_again lower self y1 y2 Hp1 Ey2).
  - rewrite list_lookup_insert_ne in Ex1 by done.
    rewrite list_lookup_insert_eq in Ex1 by done. by injection Ex1 as <-.
Qed.

(** ** Facts about the reconciled records of a whole frame *)

Lemma flat_map_replicate_one {A} (n : A → nat) (l : list A) :
  (∀ x, x ∈ l → (n x ≤ 1)%nat) →
  flat_map (λ x, replicate (n x `max` 1)%nat x) l = l.
Proof.
  induction l as [|x l IH]; intros Hn; [done|].
  cbn [flat_map]. rewrite IH by (intros; apply Hn; by right).
  assert (n x ≤ 1)%nat by (apply Hn; by left).
  by replace (n x `max` 1)%nat with 1%nat by lia.
Qed.

Lemma reconciled_no_outrank lower self (d2 : DataFrame) (t : Series) :
  (∀ s, s ∈ matches d2 (key_cols self) t →
        row_priority lower self s ≤ row_priority lower self t) →
  reconciled lower self d2 t
  = replicate (length (matches d2 (key_cols self) t) `max` 1)%nat t.
Proof.
  intros Hno. unfold reconciled.
  destruct (matches d2 (key_cols self) t) as [|s0 ms]; [done|].
  rewrite (fmap_constant _ _ t).
  - f_equal. simpl. lia.
  - intros s Hs. unfold resolve. rewrite (proj2 (Z.ltb_ge _ _)); [done|].
    by apply Hno.
Qed.

Lemma reconciled_rows_no_outrank lower self (d1 d2 : DataFrame) :
  (∀ t s, t ∈ rows d1 → s ∈ matches d2 (key_cols self) t →
          row_priority lower self s ≤ row_priority lower self t) →
  reconciled_rows lower self d1 d2
  = flat_map (λ t, replicate (length (matches d2 (key_cols self) t) `max` 1)%nat t)
             (rows d1).
Proof.
  unfold reconciled_rows. induction (rows d1) as [|t l IH]; intros Hno; [done|].
  cbn [flat_map]. rewrite IH by (intros; eapply Hno; [by right|done]).
  f_equal. apply reconciled_no_outrank. intros s Hs. apply Hno; [by left|done].
Qed.

Lemma frame_eq (a b : DataFrame) :
  columns a = columns b → rows a = rows b → a = b.
Proof. destruct a, b. simpl. by intros -> ->. Qed.

Section reconciled_frame.
Context (lower : pystr → pystr) (self : DataFrameUpdater).
Context (d1 d2 : DataFrame).
Context (Hhyg : hygienic self d1 d2).
Context (Hreq : has_required self d1 d2 = true).

Local Abbreviation keys := (key_cols self).
Local Abbreviation R := (reconciled lower self d2).

Lemma reconciled_keys l :
  (∀ t, t ∈ l → t ∈ rows d1) →
  key_of keys <$> flat_map R l
  = flat_map (λ t, replicate (length (matches d2 keys t) `max` 1)%nat
                             (key_of keys t)) l.
Proof.
  induction l as [|t l IH]; intros Hl; [done|].
  cbn [flat_map]. rewrite fmap_app, IH by (intros; apply Hl; by right).
  f_equal. unfold reconciled.
  destruct (matches d2 keys t) as [|s0 ms]; [done|].
  rewrite <-list_fmap_compose, (fmap_constant _ _ (key_of keys t)).
  - f_equal. simpl. lia.
  - intros s _. simpl. apply (resolve_key lower self d1 d2 Hhyg Hreq).
    apply Hl. by left.
Qed.



End reconciled_frame.

(** * Further properties, stated *)

(** X1: on inputs that pass validation and that [pd.merge] accepts
    (text keys, no reserved indicator name), the call raises exactly
    when some source record outranks a target record of its key and some
    non-key source column [c] has no label [c_df2] in the merged frame. *)
Theorem X1_raises_iff (lower : pystr → pystr) (self : DataFrameUpdater)
    (df1 df2 : loc) (h : heap) (d1 d2 : DataFrame) :
  h !! df1 = Some d1 → h !! df2 = Some d2 →
  hygienic self d1 d2 → has_required self d1 d2 = true →
  mergeable self d1 d2 →
  (∃ e h', compare_and_update_dataframe lower self df1 df2 h
             = Some (Raise e, h')) ↔
  (∃ t s c,
     t ∈ rows d1 ∧ s ∈ matches d2 (key_cols self) t ∧
     row_priority lower self t < row_priority lower self s ∧
     c ∈ columns d2 ∧ (c ∉ key_cols self) ∧
     (c ++ suffix_df2 ∉ working_labels self d1 d2)).
Proof.
  intros H1 H2 Hhyg Hreq _. split.
  - intros (e & h' & Hcall).
    destruct (method_cases lower self df1 df2 h d1 d2 H1 H2 Hhyg Hreq)
      as [(out & Hok & _)|(t & s & c & _ & ? & ? & ? & ? & ? & _ & ?)];
      [congruence|].
    by exists t, s, c.
  - intros (t & s & c & Ht & Hs & Hlt & Hc & Hck & Hmiss).
    destruct (source_only_column_raises lower self df1 df2 h d1 d2 t s c
                H1 H2 Hhyg Hreq Ht Hs Hlt Hc Hck Hmiss) as [e He].
    by eexists _, _.
Qed.

(** X1 at a source with the column [extra], which the target lacks. *)
Lemma X1_witness :
  (∃ e h', compare_and_update_dataframe str_lower updater 0%nat 1%nat
             [target1; source_extra] = Some (Raise e, h')) ↔
  (∃ t s c,
     t ∈ rows target1 ∧ s ∈ matches source_extra (key_cols updater) t ∧
     row_priority str_lower updater t < row_priority str_lower updater s ∧
     c ∈ columns source_extra ∧ (c ∉ key_cols updater) ∧
     (c ++ suffix_df2 ∉ working_labels updater target1 source_extra)).
Proof.
  apply (X1_raises_iff str_lower updater 0%nat 1%nat
           [target1; source_extra] target1 source_extra).
  - reflexivity.
  - reflexivity.
  - by_eval.
  - vm_compute; reflexivity.
  - by_eval.
Defined.

(** X2: on inputs that [pd.merge] accepts (text keys, no reserved
    indicator name), an exception of a call that passed validation is a
    [KeyError] for the label [c_df2] of a source column [c] that the
    target does not have, and it leaves both arguments with their
    priority column. *)
Theorem X2_exception_is_KeyError (lower : pystr → pystr) (self : DataFrameUpdater)
    (df1 df2 : loc) (h : heap) (d1 d2 : DataFrame) (e : exn) (h' : heap) :
  h !! df1 = Some d1 → h !! df2 = Some d2 →
  hygienic self d1 d2 → has_required self d1 d2 = true →
  mergeable self d1 d2 →
  compare_and_update_dataframe lower self df1 df2 h = Some (Raise e, h') →
  ∃ c, e = KeyError (c ++ suffix_df2) ∧
       c ∈ columns d2 ∧ (c ∉ columns d1) ∧
       h' !! df1 = Some (annotated lower self d1) ∧
       h' !! df2 = Some (annotated lower self d2) ∧
       length h' = length h.
Proof.
  intros H1 H2 Hhyg Hreq _ Hcall.
  destruct (method_cases lower self df1 df2 h d1 d2 H1 H2 Hhyg Hreq)
    as [(out & Hok & _)|(t & s & c & Hr & _ & _ & _ & Hc & _ & Hn & _)];
    [congruence|].
  rewrite Hr in Hcall. injection Hcall as <- <-.
  exists c. split; [done|]. split; [done|]. split; [done|].
  split; [by apply annotated_heap_df1|].
  split; [by apply annotated_heap_df2|apply annotated_heap_length].
Qed.

(** X2 at the same input: the exception names [extra_df2]. *)
Lemma X2_witness :
  ∃ c, KeyError (u "extra_df2") = KeyError (c ++ suffix_df2) ∧
       c ∈ columns source_extra ∧ (c ∉ columns target1) ∧
       [annotated str_lower updater target1;
        annotated str_lower updater source_extra] !! 0%nat
         = Some (annotated str_lower updater target1) ∧
       [annotated str_lower updater target1;
        annotated str_lower updater source_extra] !! 1%nat
         = Some (annotated str_lower updater source_extra) ∧
       length [annotated str_lower updater target1;
               annotated str_lower updater source_extra]
         = length [target1; source_extra].
Proof.
  apply (X2_exception_is_KeyError str_lower updater 0%nat 1%nat
           [target1; source_extra] target1 source_extra).
  - reflexivity.
  - reflexivity.
  - by_eval.
  - vm_compute; reflexivity.
  - by_eval.
  - vm_compute; reflexivity.
Defined.

(** X3: when every source column is a target column, a call that passes
    validation on inputs that [pd.merge] accepts (text keys, no reserved
    indicator name) raises nothing: it returns a new frame with the
    target's columns. *)
Theorem X3_returns_on_shared_columns (lower : pystr → pystr)
    (self : DataFrameUpdater) (df1 df2 : loc) (h : heap) (d1 d2 : DataFrame) :
  h !! df1 = Some d1 → h !! df2 = Some d2 →
  hygienic self d1 d2 → has_required self d1 d2 = true →
  mergeable self d1 d2 →
  columns d2 ⊆ columns d1 →
  ∃ h' out,
    compare_and_update_dataframe lower self df1 df2 h
      = Some (Ok (length h), h') ∧
    h' !! length h = Some out ∧ columns out = columns d1.
Proof.
  intros H1 H2 Hhyg Hreq _ Hsub.
  destruct (method_cases lower self df1 df2 h d1 d2 H1 H2 Hhyg Hreq)
    as [(out & Hok & Hcols & _)|(t & s & c & _ & _ & _ & _ & Hc & _ & Hn & _)].
  - eexists _, out. split; [exact Hok|]. split; [|done].
    rewrite <-(annotated_heap_length lower self df1 df2 h d1 d2).
    apply lookup_fresh_object.
  - destruct Hn. by apply Hsub.
Qed.

(** X3 at the first scenario of the design document. *)
Lemma X3_witness :
  ∃ h' out,
    compare_and_update_dataframe str_lower updater 0%nat 1%nat [target1; source1]
      = Some (Ok 2%nat, h') ∧
    h' !! 2%nat = Some out ∧ columns out = columns target1.
Proof.
  apply (X3_returns_on_shared_columns str_lower updater 0%nat 1%nat
           [target1; source1] target1 source1).
  - reflexivity.
  - reflexivity.
  - by_eval.
  - vm_compute; reflexivity.
  - by_eval.
  - by_eval.
Defined.

(** X4: when no source record outranks a target record of its key, the
    call returns on inputs that [pd.merge] accepts (text keys, no
    reserved indicator name), whatever columns the source has, and every
    output record is a target record, repeated once per match; with at
    most one match per target record the returned frame equals the
    target. *)
Theorem X4_no_outranking_returns_target (lower : pystr → pystr)
    (self : DataFrameUpdater) (df1 df2 : loc) (h : heap) (d1 d2 : DataFrame) :
  h !! df1 = Some d1 → h !! df2 = Some d2 →
  hygienic self d1 d2 → has_required self d1 d2 = true →
  mergeable self d1 d2 →
  (∀ t s, t ∈ rows d1 → s ∈ matches d2 (key_cols self) t →
          row_priority lower self s ≤ row_priority lower self t) →
  ∃ h' out,
    compare_and_update_dataframe lower self df1 df2 h
      = Some (Ok (length h), h') ∧
    h' !! length h = Some out ∧
    columns out = columns d1 ∧
    rows out =
      flat_map (λ t, replicate (length (matches d2 (key_cols self) t) `max` 1)%nat t)
               (rows d1) ∧
    ((∀ t, t ∈ rows d1 → (length (matches d2 (key_cols self) t) ≤ 1)%nat) →
     out = d1).
Proof.
  intros H1 H2 Hhyg Hreq _ Hno.
  destruct (method_cases lower self df1 df2 h d1 d2 H1 H2 Hhyg Hreq)
    as [(out & Hok & Hcols & Hrows)|(t & s & c & _ & Ht & Hs & Hlt & _)].
  - rewrite (reconciled_rows_no_outrank lower self d1 d2 Hno) in Hrows.
    eexists _, out. split; [exact Hok|]. split.
    { rewrite <-(annotated_heap_length lower self df1 df2 h d1 d2).
      apply lookup_fresh_object. }
    split; [done|]. split; [done|].
    intros Hone. apply frame_eq; [done|].
    rewrite Hrows. by apply flat_map_replicate_one.
  - specialize (Hno t s Ht Hs). lia.
Qed.

(** X4 at a source that ties with a target record and has a column of
    its own. *)
Lemma X4_witness :
  ∃ h' out,
    compare_and_update_dataframe str_lower updater 0%nat 1%nat [target2; source_tie]
      = Some (Ok 2%nat, h') ∧
    h' !! 2%nat = Some out ∧
    columns out = columns target2 ∧
    rows out =
      flat_map (λ t, replicate
                       (length (matches source_tie (key_cols updater) t) `max` 1)%nat t)
               (rows target2) ∧
    ((∀ t, t ∈ rows target2 →
           (length (matches source_tie (key_cols updater) t) ≤ 1)%nat) →
     out = target2).
Proof.
  apply (X4_no_outranking_returns_target str_lower updater 0%nat 1%nat
           [target2; source_tie] target2 source_tie).
  - reflexivity.
  - reflexivity.
  - by_eval.
  - vm_compute; reflexivity.
  - by_eval.
  - intros t s Ht. revert s. apply Forall_forall. revert t Ht.
    apply Forall_forall. by_eval.
Defined.



(** X6: a returned frame keeps the keys of the target, in the target's
    order: the key pairs of its records are those of the target records,
    each repeated once per source record of that key (once when there is
    none). *)
Theorem X6_keys_preserved (lower : pystr → pystr) (self : DataFrameUpdater)
    (df1 df2 : loc) (h : heap) (d1 d2 : DataFrame)
    (r : loc) (h' : heap) (out : DataFrame) :
  h !! df1 = Some d1 → h !! df2 = Some d2 →
  hygienic self d1 d2 → has_required self d1 d2 = true →
  compare_and_update_dataframe lower self df1 df2 h = Some (Ok r, h') →
  h' !! r = Some out →
  key_of (key_cols self) <$> rows out =
    flat_map (λ t, replicate (length (matches d2 (key_cols self) t) `max` 1)%nat
                             (key_of (key_cols self) t))
             (rows d1).
Proof.
  intros H1 H2 Hhyg Hreq Hcall Hout.
  destruct (method_spec lower self df1 df2 h d1 d2 r h' out
              H1 H2 Hhyg Hreq Hcall Hout) as (_ & _ & _ & ->).
  unfold reconciled_rows. by apply (reconciled_keys lower self d1 d2 Hhyg Hreq).
Qed.

(** X6 with two source records of the target record's key. *)
Lemma X6_witness :
  key_of (key_cols updater) <$> rows output_two_matches =
    flat_map (λ t, replicate
                     (length (matches source_two_matches (key_cols updater) t)
                        `max` 1)%nat
                     (key_of (key_cols updater) t))
             (rows target1).
Proof.
  eapply (X6_keys_preserved str_lower updater 0%nat 1%nat
            [target1; source_two_matches] target1 source_two_matches 2%nat).
  - reflexivity.
  - reflexivity.
  - by_eval.
  - vm_compute; reflexivity.
  - vm_compute; reflexivity.
  - reflexivity.
Defined.

(** X7: every field of every record of a returned frame comes from the
    target record of the same key or, keys apart, from a source record of
    that key which outranks it. *)
Theorem X7_field_provenance (lower : pystr → pystr) (self : DataFrameUpdater)
    (df1 df2 : loc) (h : heap) (d1 d2 : DataFrame)
    (r : loc) (h' : heap) (out : DataFrame) (o : Series) (c : label) (v : cell) :
  h !! df1 = Some d1 → h !! df2 = Some d2 →
  hygienic self d1 d2 → has_required self d1 d2 = true →
  compare_and_update_dataframe lower self df1 df2 h = Some (Ok r, h') →
  h' !! r = Some out →
  o ∈ rows out → (c, v) ∈ o →
  ∃ t, t ∈ rows d1 ∧
       key_of (key_cols self) o = key_of (key_cols self) t ∧
       ((c, v) ∈ t ∨
        ∃ s, s ∈ matches d2 (key_cols self) t ∧ (c, v) ∈ s ∧
             (c ∉ key_cols self) ∧
             row_priority lower self t < row_priority lower self s).
Proof.
  intros H1 H2 Hhyg Hreq Hcall Hout Ho Hcv.
  destruct (method_spec lower self df1 df2 h d1 d2 r h' out
              H1 H2 Hhyg Hreq Hcall Hout) as (_ & _ & _ & Hrows).
  rewrite Hrows in Ho.
  apply reconciled_rows_inv in Ho as (t & Ht & [[-> _]|(s & Hs & ->)]).
  - exists t. split; [done|]. split; [done|]. by left.
  - exists t. split; [done|].
    split; [by apply (resolve_key lower self d1 d2 Hhyg Hreq)|].
    apply resolve_provenance in Hcv as [?|(? & ? & ?)]; [by left|].
    right. by exists s.
Qed.

(** X7 at the first scenario: the field [x = b] of the output record. *)
Lemma X7_witness :
  ∃ t, t ∈ rows target1 ∧
       key_of (key_cols updater)
              (zip cols4 [str "10.0.0.1"; str "PC-1"; str "очень важно"; str "b"])
         = key_of (key_cols updater) t ∧
       ((u "x", str "b") ∈ t ∨
        ∃ s, s ∈ matches source1 (key_cols updater) t ∧ (u "x", str "b") ∈ s ∧
             (u "x" ∉ key_cols updater) ∧
             row_priority str_lower updater t < row_priority str_lower updater s).
Proof.
  eapply (X7_field_provenance str_lower updater 0%nat 1%nat
            [target1; source1] target1 source1 2%nat _ output1).
  - reflexivity.
  - reflexivity.
  - by_eval.
  - vm_compute; reflexivity.
  - vm_compute; reflexivity.
  - reflexivity.
  - by_eval.
  - by_eval.
Defined.



(** ** Calls that follow a first call *)

Lemma annotated_heap_id lower self df1 df2 (h : heap) d1 d2 :
  h !! df1 = Some (annotated lower self d1) →
  h !! df2 = Some (annotated lower self d2) →
  annotated_heap lower self df1 df2 h d1 d2 = h.
Proof.
  intros H1 H2. unfold annotated_heap.
  rewrite (list_insert_id h df1) by done. by apply list_insert_id.
Qed.



Lemma sublist_without_last {A} (k l : list A) (x : A) :
  k `sublist_of` l ++ [x] → x ∉ k → k `sublist_of` l.
Proof.
  intros (k1 & k2 & -> & H1 & H2)%sublist_app_r Hx.
  destruct k2 as [|y k2].
  - by rewrite app_nil_r.
  - exfalso. apply Hx, elem_of_app. right.
    assert (y ∈ [x]) as ->%list_elem_of_singleton.
    { eapply elem_of_sublist; [by left|exact H2]. }
    by left.
Qed.

(** X9: calling the method a second time on the same two arguments gives
    the same outcome as the first call (the same exception, or a new
    frame equal to the first result) and leaves every object as the first
    call left it. *)
Theorem X9_repeated_call (lower : pystr → pystr) (self : DataFrameUpdater)
    (df1 df2 : loc) (h : heap) (d1 d2 : DataFrame) (r : res loc) (h1 : heap) :
  h !! df1 = Some d1 → h !! df2 = Some d2 →
  hygienic self d1 d2 → has_required self d1 d2 = true →
  compare_and_update_dataframe lower self df1 df2 h = Some (r, h1) →
  (∃ e, r = Raise e ∧
        compare_and_update_dataframe lower self df1 df2 h1 = Some (Raise e, h1)) ∨
  (∃ out, r = Ok (length h) ∧ h1 !! length h = Some out ∧
          compare_and_update_dataframe lower self df1 df2 h1
            = Some (Ok (length h1), h1 ++ [out])).
Proof.
  intros H1 H2 Hhyg Hreq Hcall.
  pose proof Hhyg as (Hwf1 & Hwf2 & Hp1 & Hp2 & _).
  rewrite (method_valid lower self df1 df2 h d1 d2 H1 H2 Hreq Hwf1 Hwf2 Hp1 Hp2)
    in Hcall.
  pose proof (annotated_heap_df1 lower self df1 df2 h d1 d2 H1 H2) as Ha1.
  pose proof (annotated_heap_df2 lower self df1 df2 h d1 d2 H2) as Ha2.
  pose proof (annotated_heap_length lower self df1 df2 h d1 d2) as Hlen.
  assert (df1 = df2 → d1 = d2) as Halias by (intros ->; congruence).
  destruct (reconcile_frames self (annotated lower self d1)
                             (annotated lower self d2)) as [out|e] eqn:Erec;
    injection Hcall as <- <-.
  - right. exists out. split; [done|].
    split; [rewrite <-Hlen; apply lookup_fresh_object|].
    assert ((annotated_heap lower self df1 df2 h d1 d2 ++ [out]) !! df1
            = Some (annotated lower self d1)) as Hb1
      by (by apply lookup_app_l_Some).
    assert ((annotated_heap lower self df1 df2 h d1 d2 ++ [out]) !! df2
            = Some (annotated lower self d2)) as Hb2
      by (by apply lookup_app_l_Some).
    rewrite (method_valid_gen lower self df1 df2 _ _ _ d1 d2 Hb1 Hb2);
      [|by right|by right|done..].
    by rewrite Erec, (annotated_heap_id lower self df1 df2 _ d1 d2 Hb1 Hb2).
  - left. exists e. split; [done|].
    rewrite (method_valid_gen lower self df1 df2 _ _ _ d1 d2 Ha1 Ha2);
      [|by right|by right|done..].
    by rewrite Erec, (annotated_heap_id lower self df1 df2 _ d1 d2 Ha1 Ha2).
Qed.

(** X9 at the first scenario of the design document. *)
Lemma X9_witness :
  (∃ e, Ok 2%nat = Raise e ∧
        compare_and_update_dataframe str_lower updater 0%nat 1%nat
          [annotated str_lower updater target1;
           annotated str_lower updater source1; output1]
        = Some (Raise e, [annotated str_lower updater target1;
                          annotated str_lower updater source1; output1])) ∨
  (∃ out, Ok 2%nat = Ok (length [target1; source1]) ∧
          [annotated str_lower updater target1;
           annotated str_lower updater source1; output1]
            !! length [target1; source1] = Some out ∧
          compare_and_update_dataframe str_lower updater 0%nat 1%nat
            [annotated str_lower updater target1;
             annotated str_lower updater source1; output1]
          = Some (Ok (length [annotated str_lower updater target1;
                              annotated str_lower updater source1; output1]),
                  [annotated str_lower updater target1;
                   annotated str_lower updater source1; output1] ++ [out])).
Proof.
  apply (X9_repeated_call str_lower updater 0%nat 1%nat
           [target1; source1] target1 source1).
  - reflexivity.
  - reflexivity.
  - by_eval.
  - vm_compute; reflexivity.
  - vm_compute; reflexivity.
Defined.



(** X11: the caller of the module's script passes a copy of the target.
    No object the caller already had is then altered, the source apart:
    the copy and the source receive the priority column, and a returned
    frame is a further new object with the target's columns. *)
Theorem X11_call_on_copy (lower : pystr → pystr) (self : DataFrameUpdater)
    (df1 df2 : loc) (h : heap) (d1 d2 : DataFrame) :
  h !! df1 = Some d1 → h !! df2 = Some d2 →
  hygienic self d1 d2 → has_required self d1 d2 = true →
  ∃ o h',
    call_on_copy lower self df1 df2 h = Some (o, h') ∧
    (∀ l, l ≠ df2 → (l < length h)%nat → h' !! l = h !! l) ∧
    h' !! df2 = Some (annotated lower self d2) ∧
    h' !! length h = Some (annotated lower self d1) ∧
    ((∃ e, o = Raise e) ∨
     (∃ out, o = Ok (S (length h)) ∧ h' !! S (length h) = Some out ∧
             columns out = columns d1 ∧
             rows out = reconciled_rows lower self d1 d2)).
Proof.
  intros H1 H2 Hhyg Hreq.
  pose proof (lookup_lt_Some _ _ _ H2) as Hlt2.
  assert ((h ++ [d1]) !! length h = Some d1) as Hc1 by apply lookup_fresh_object.
  assert ((h ++ [d1]) !! df2 = Some d2) as Hc2 by (by apply lookup_app_l_Some).
  pose proof (annotated_heap_df1 lower self _ df2 _ d1 d2 Hc1 Hc2) as Ha1.
  pose proof (annotated_heap_df2 lower self (length h) df2 _ d1 d2 Hc2) as Ha2.
  pose proof (annotated_heap_length lower self (length h) df2 (h ++ [d1]) d1 d2)
    as Hlen.
  rewrite length_app in Hlen. simpl in Hlen.
  assert (∀ l, l ≠ df2 → (l < length h)%nat →
               annotated_heap lower self (length h) df2 (h ++ [d1]) d1 d2 !! l
               = h !! l) as Hother.
  { intros l ? ?.
    rewrite (annotated_heap_other lower self (length h) df2 (h ++ [d1]) d1 d2)
      by (done || lia).
    by rewrite lookup_app_l. }
  unfold call_on_copy, frame_copy. rewrite H1. simpl.
  destruct (method_cases lower self (length h) df2 (h ++ [d1]) d1 d2
              Hc1 Hc2 Hhyg Hreq)
    as [(out & -> & Hcols & Hrows)|(t & s & c & -> & _)].
  - eexists _, _. split; [done|].
    split; [intros l ? ?; rewrite lookup_app_l by lia; by apply Hother|].
    split; [by apply lookup_app_l_Some|].
    split; [by apply lookup_app_l_Some|].
    right. exists out.
    assert (length (h ++ [d1]) = S (length h)) as Hl
      by (rewrite length_app; simpl; lia).
    rewrite Hl. split; [done|]. split; [|done].
    replace (S (length h)) with (length h + 1)%nat by lia.
    rewrite <-Hlen. apply lookup_fresh_object.
  - eexists _, _. split; [done|].
    split; [done|]. split; [done|]. split; [done|]. left. by eexists.
Qed.

(** X11 at the first scenario of the design document. *)
Lemma X11_witness :
  ∃ o h',
    call_on_copy str_lower updater 0%nat 1%nat [target1; source1] = Some (o, h') ∧
    (∀ l, l ≠ 1%nat → (l < length [target1; source1])%nat →
          h' !! l = [target1; source1] !! l) ∧
    h' !! 1%nat = Some (annotated str_lower updater source1) ∧
    h' !! length [target1; source1] = Some (annotated str_lower updater target1) ∧
    ((∃ e, o = Raise e) ∨
     (∃ out, o = Ok (S (length [target1; source1])) ∧
             h' !! S (length [target1; source1]) = Some out ∧
             columns out = columns target1 ∧
             rows out = reconciled_rows str_lower updater target1 source1)).
Proof.
  apply (X11_call_on_copy str_lower updater 0%nat 1%nat
           [target1; source1] target1 source1).
  - reflexivity.
  - reflexivity.
  - by_eval.
  - vm_compute; reflexivity.
Defined.

(** X12: whatever columns the inputs have, a frame returned after the
    validation has passed carries a selection of the target's columns, in
    the target's order, and none of the three working labels: a target
    column that is called [priority] is not returned. *)
Theorem X12_returned_columns (lower : pystr → pystr) (self : DataFrameUpdater)
    (df1 df2 : loc) (h : heap) (d1 d2 : DataFrame)
    (r : loc) (h' : heap) (out : DataFrame) :
  h !! df1 = Some d1 → h !! df2 = Some d2 →
  has_required self d1 d2 = true →
  compare_and_update_dataframe lower self df1 df2 h = Some (Ok r, h') →
  h' !! r = Some out →
  columns out `sublist_of` columns d1 ∧
  (∀ c, c ∈ columns out → c ∉ dropped_labels).
Proof.
  intros H1 H2 Hreq Hcall Hout.
  destruct (method_Ok_inv lower self df1 df2 h d1 d2 r h' H1 H2 Hreq Hcall)
    as (x1 & x2 & out' & Hrec & Hout' & Hx1).
  assert (out' = out) as -> by congruence.
  destruct (reconcile_frames_columns self x1 x2 out Hrec) as [Hsub Hnone].
  split; [|done].
  destruct Hx1 as [Hx1|Hx1]; rewrite Hx1 in Hsub; [done|].
  apply (sublist_without_last _ _ priority_lbl); [done|].
  intros Hp. apply (Hnone _ Hp). by left.
Qed.

(** X12 at a target with a column [priority] of its own: the returned
    frame has lost it. *)
Lemma X12_witness :
  columns (frame [u "ip"; u "name"; u "value"]
                 [[str "10.0.0.1"; str "PC-1"; str "важно"]])
    `sublist_of` columns target_own_priority ∧
  (∀ c, c ∈ columns (frame [u "ip"; u "name"; u "value"]
                           [[str "10.0.0.1"; str "PC-1"; str "важно"]]) →
        c ∉ dropped_labels).
Proof.
  eapply (X12_returned_columns str_lower updater 0%nat 1%nat
            [target_own_priority; source3] target_own_priority source3 2%nat).
  - reflexivity.
  - reflexivity.
  - vm_compute; reflexivity.
  - vm_compute; reflexivity.
  - vm_compute; reflexivity.
Defined.

(** ** The annotation of a frame that has a priority column already *)

Lemma annotate_wf lower self (d : DataFrame) :
  wf_frame d → value_col self ∈ columns d →
  annotate lower self d = Ok (with_scores lower self d).
Proof.
  intros Hwf Hv. unfold annotate. rewrite frame_get_wf by done. simpl.
  unfold frame_set, with_scores. do 2 f_equal.
  rewrite <-list_fmap_compose.
  rewrite <-(list_fmap_id (rows d)) at 1. rewrite zip_with_fmap_same.
  apply Forall_fmap_ext. destruct Hwf as [_ Hrows].
  eapply Forall_impl; [exact Hrows|]. intros r Hr. simpl in *.
  unfold row_priority, cell_or_nan.
  destruct (series_get_is_Ok r (value_col self)) as [v ->]; [|done].
  by rewrite Hr.
Qed.

(** X13: a column [priority] that an argument already has is
    overwritten in place with the scores, whatever the call then
    returns or raises: the caller's frame keeps its labels and every
    other field, and loses what the column held. *)
Theorem X13_own_priority_overwritten (lower : pystr → pystr)
    (self : DataFrameUpdater) (df1 df2 : loc) (h : heap) (d1 d2 : DataFrame) :
  h !! df1 = Some d1 → h !! df2 = Some d2 → df1 ≠ df2 →
  wf_frame d1 → wf_frame d2 → has_required self d1 d2 = true →
  priority_lbl ∈ columns d1 →
  ∃ o h' d1',
    compare_and_update_dataframe lower self df1 df2 h = Some (o, h') ∧
    h' !! df1 = Some d1' ∧
    columns d1' = columns d1 ∧
    (∀ i r, rows d1 !! i = Some r →
       ∃ r', rows d1' !! i = Some r' ∧ r'.*1 = r.*1 ∧
             series_get r' priority_lbl = Ok (VInt (row_priority lower self r)) ∧
             ∀ c, c ≠ priority_lbl → series_get r' c = series_get r c).
Proof.
  intros H1 H2 Hne Hwf1 Hwf2 Hreq Hp.
  destruct (required_columns self d1 d2 Hreq) as [(_ & _ & Hv1) (_ & _ & Hv2)].
  pose proof (lookup_lt_Some _ _ _ H1) as Hlt1.
  pose proof (lookup_lt_Some _ _ _ H2) as Hlt2.
  assert (∃ o h', compare_and_update_dataframe lower self df1 df2 h = Some (o, h') ∧
                  h' !! df1 = Some (with_scores lower self d1)) as (o & h' & Hcall & Hl).
  { unfold compare_and_update_dataframe.
    rewrite H1, H2. simpl. rewrite Hreq. simpl.
    rewrite (annotate_wf lower self d1 Hwf1 Hv1).
    rewrite list_lookup_insert_ne, H2 by done. simpl.
    rewrite (annotate_wf lower self d2 Hwf2 Hv2).
    assert (<[df2:=with_scores lower self d2]>
              (<[df1:=with_scores lower self d1]> h) !! df1
            = Some (with_scores lower self d1)) as Hl1.
    { rewrite list_lookup_insert_ne by done. by apply list_lookup_insert_eq. }
    rewrite Hl1. simpl.
    rewrite list_lookup_insert_eq by (by rewrite length_insert). simpl.
    destruct (reconcile_frames _ _ _) as [out|e]; eexists _, _; (split; [done|]).
    - by apply lookup_app_l_Some.
    - done. }
  exists o, h', (with_scores lower self d1). split; [done|]. split; [done|].
  split; [unfold with_scores; cbn [columns]; by rewrite decide_True|].
  intros i r Hr. eexists. split.
  { unfold with_scores. cbn [rows]. rewrite list_lookup_fmap, Hr. done. }
  assert (priority_lbl ∈ r.*1) as Hin.
  { destruct Hwf1 as [_ Hrows]. rewrite Forall_forall in Hrows.
    rewrite (Hrows r); [done|]. by eapply list_elem_of_lookup_2. }
  split; [by apply series_set_labels|].
  split; [apply series_get_set_eq|].
  intros c Hc. by apply series_get_set_ne.
Qed.

(** X13 at a target whose own column [priority] holds the text
    [urgent]. *)
Lemma X13_witness :
  ∃ o h' d1',
    compare_and_update_dataframe str_lower updater 0%nat 1%nat
      [target_own_priority; source3] = Some (o, h') ∧
    h' !! 0%nat = Some d1' ∧
    columns d1' = columns target_own_priority ∧
    (∀ i r, rows target_own_priority !! i = Some r →
       ∃ r', rows d1' !! i = Some r' ∧ r'.*1 = r.*1 ∧
             series_get r' priority_lbl
               = Ok (VInt (row_priority str_lower updater r)) ∧
             ∀ c, c ≠ priority_lbl → series_get r' c = series_get r c).
Proof.
  apply (X13_own_priority_overwritten str_lower updater 0%nat 1%nat
           [target_own_priority; source3] target_own_priority source3).
  - reflexivity.
  - reflexivity.
  - lia.
  - by_eval.
  - by_eval.
  - vm_compute; reflexivity.
  - by_eval.
Defined.

(** X14: with the default ranking every score lies between 0 and 5, and
    the score 0 is that of the values the ranking does not list, so such
    a value outranks nothing. *)
Theorem X14_default_score_range (lower : pystr → pystr) (self : DataFrameUpdater)
    (value : cell) :
  priority_map self = PRIORITY_MAP →
  0 ≤ get_priority lower self value ≤ 5 ∧
  (get_priority lower self value = 0 ↔
   PRIORITY_MAP !! lower (py_str value) = None).
Proof.
  intros Hmap. unfold get_priority. rewrite Hmap. cbv zeta.
  rewrite PRIORITY_MAP_lookup.
  repeat case_decide; simpl; (split; [lia|]); split; intros; (done || lia).
Qed.

(** X14 at the updater of the module's script and a missing value. *)
Lemma X14_witness :
  0 ≤ get_priority str_lower updater VNaN ≤ 5 ∧
  (get_priority str_lower updater VNaN = 0 ↔
   PRIORITY_MAP !! str_lower (py_str VNaN) = None).
Proof.
  apply (X14_default_score_range str_lower updater VNaN). reflexivity.
Defined.
